(** * CIK lookup: block extractor, record parser and query driver

    A shallow embedding of [cik_lookup.py].  Python [str] values are
    sequences of Unicode code points, indices are mathematical integers
    (so that the sentinel [-1] of [str.find] and negative slice bounds
    behave as in Python), the [dict] built by the record parser is an
    insertion-ordered association list, and standard output is the text
    written to it. *)

From Stdlib Require Import String Ascii DecimalString.
From Stdlib Require Import ZArith NArith List Lia Bool.
Import ListNotations.

Local Open Scope Z_scope.

(** ** Python strings *)

Module PyStr.

(** A character is a code point; a [str] is a list of them. *)
Definition char := N.
Definition text := list char.

(** String literals of the source, written as Rocq strings. *)
Definition lit (s : string) : text :=
  map N_of_ascii (list_ascii_of_string s).

Definition nl : char := 10%N.
Definition space : char := 32%N.
Definition dquote : char := 34%N.

Definition len (s : text) : Z := Z.of_nat (length s).

Fixpoint text_eqb (s t : text) : bool :=
  match s, t with
  | [], [] => true
  | c :: s', d :: t' => N.eqb c d && text_eqb s' t'
  | _, _ => false
  end.

(** [startswith sub s]: [s] begins with [sub]. *)
Fixpoint startswith (sub s : text) : bool :=
  match sub, s with
  | [], _ => true
  | _ :: _, [] => false
  | c :: sub', d :: s' => N.eqb c d && startswith sub' s'
  end.

(** [sub] occurs in [s] at index [j]. *)
Definition occ (sub s : text) (j : nat) : bool :=
  startswith sub (skipn j s).

(** Slice bounds as Python adjusts them: a negative bound counts from
    the end, and both are clamped into [0 .. n]. *)
Definition norm_index (n i : Z) : Z :=
  if i <? 0 then Z.max (i + n) 0 else Z.min i n.

(** [s[i:j]] *)
Definition slice (s : text) (i j : Z) : text :=
  let a := norm_index (len s) i in
  let b := norm_index (len s) j in
  firstn (Z.to_nat (b - a)) (skipn (Z.to_nat a) s).

(** [s[i:]] *)
Definition slice_from (s : text) (i : Z) : text :=
  skipn (Z.to_nat (norm_index (len s) i)) s.

(** Scan of the suffix [s] that begins at index [i] of the whole
    string: the lowest index at which [sub] starts, else [-1]. *)
Fixpoint find_at (sub s : text) (i : Z) : Z :=
  match s with
  | [] => if startswith sub [] then i else -1
  | _ :: s' => if startswith sub s then i else find_at sub s' (i + 1)
  end.

(** [s.find(sub, start)] *)
Definition str_find (s sub : text) (start : Z) : Z :=
  if len s <? start then -1
  else
    let a := norm_index (len s) start in
    find_at sub (skipn (Z.to_nat a) s) a.

(** [sub in s] *)
Definition str_in (sub s : text) : bool :=
  negb (str_find s sub 0 =? -1).

(** [c.isspace()] for one code point (the Unicode white space set of
    CPython). *)
Definition isspace (c : char) : bool :=
  ((9 <=? c) && (c <=? 13) || (28 <=? c) && (c <=? 32)
   || (c =? 133) || (c =? 160) || (c =? 5760)
   || (8192 <=? c) && (c <=? 8202)
   || (c =? 8232) || (c =? 8233) || (c =? 8239) || (c =? 8287)
   || (c =? 12288))%N.

Fixpoint lstrip (s : text) : text :=
  match s with
  | [] => []
  | c :: s' => if isspace c then lstrip s' else s
  end.

Definition rstrip (s : text) : text := rev (lstrip (rev s)).

(** [s.strip()] *)
Definition str_strip (s : text) : text := rstrip (lstrip s).

(** [s.split(sep)] for a one-character separator: always at least one
    field, empty fields are kept. *)
Fixpoint str_split (sep : char) (s : text) : list text :=
  match s with
  | [] => [[]]
  | c :: s' =>
      if N.eqb c sep then [] :: str_split sep s'
      else match str_split sep s' with
           | [] => [[c]]
           | field :: fields => (c :: field) :: fields
           end
  end.

(** The format specification [<width] applied to a [str]: left
    aligned, filled with spaces on the right up to [width], and left
    as it is when already that long. *)
Definition format_left (s : text) (width : nat) : text :=
  s ++ repeat space (width - length s)%nat.

(** [str(n)] for an [int]. *)
Definition str_int (n : Z) : text :=
  lit (NilEmpty.string_of_int (Z.to_int n)).

(** [print(s)]: what one call adds to standard output. *)
Definition print (s : text) : text := s ++ [nl].

(** [sep.join(fields)] for a one-character separator. *)
Fixpoint str_join (sep : char) (fields : list text) : text :=
  match fields with
  | [] => []
  | field :: rest =>
      match rest with
      | [] => field
      | _ :: _ => field ++ sep :: str_join sep rest
      end
  end.

(** [s.count(c)] for one character. *)
Definition count_char (c : char) (s : text) : nat :=
  length (filter (N.eqb c) s).

(** Neither the first nor the last character is white space. *)
Definition trimmed (s : text) : bool :=
  match s with [] => true | c :: _ => negb (isspace c) end
  && match rev s with [] => true | c :: _ => negb (isspace c) end.

(** [x] is a run of consecutive characters of [s]. *)
Definition substring_of (x s : text) : Prop :=
  exists u v, s = u ++ x ++ v.

End PyStr.

(** ** Python dictionaries, in insertion order *)

Module PyDict.
Import PyStr.

Definition dict := list (text * text).

(** [d[k] = v]: an existing key keeps its place and takes the new
    value, a new key goes to the end. *)
Fixpoint dict_set (d : dict) (k v : text) : dict :=
  match d with
  | [] => [(k, v)]
  | (k', v') :: d' =>
      if text_eqb k' k then (k', v) :: d'
      else (k', v') :: dict_set d' k v
  end.

Fixpoint dict_get (d : dict) (k : text) : option text :=
  match d with
  | [] => None
  | (k', v') :: d' => if text_eqb k' k then Some v' else dict_get d' k
  end.

Definition keys (d : dict) : list text := map fst d.

(** Number of entries stored under [k]. *)
Definition entries_for (d : dict) (k : text) : nat :=
  length (filter (fun kv => text_eqb (fst kv) k) d).

(** The keys of [ks] in the order in which each is met for the first
    time, leaving out those already in [seen]. *)
Fixpoint first_seen (seen ks : list text) : list text :=
  match ks with
  | [] => []
  | k :: ks' =>
      if existsb (text_eqb k) seen then first_seen seen ks'
      else k :: first_seen (seen ++ [k]) ks'
  end.

End PyDict.

(** ** The program *)

Module CikLookup.
Import PyStr PyDict.

Definition start_tag : text := lit "<pre>".
Definition end_tag : text := lit "</pre>".

(** The [while start != -1] loop of [extract_pre_sections]; [fuel]
    bounds the number of iterations, [None] means it ran out. *)
Fixpoint extract_loop (fuel : nat) (html : text) (start : Z)
    (pre_sections : list text) : option (list text) :=
  match fuel with
  | O => None
  | S fuel' =>
      if start =? -1 then Some pre_sections
      else
        let end_ := str_find html end_tag start in
        if negb (end_ =? -1) then
          let pre_content :=
            str_strip (slice html (start + len start_tag) end_) in
          extract_loop fuel' html (str_find html start_tag end_)
            (pre_sections ++ [pre_content])
        else Some pre_sections
  end.

(** One run of [extract_pre_sections] with as many iterations allowed
    as the text has characters, plus one. *)
Definition extract_run (html : text) : option (list text) :=
  extract_loop (S (length html)) html (str_find html start_tag 0) [].

Definition extract_pre_sections (html : text) : list text :=
  match extract_run html with
  | Some pre_sections => pre_sections
  | None => []
  end.

(** The literals of the record parser. *)
Definition anchor_open : text := lit "<a href=" ++ [dquote].
Definition quote_gt : text := dquote :: lit ">".
Definition anchor_close : text := lit "</a>".

Definition start_link (line : text) : Z := str_find line quote_gt 0 + 2.
Definition end_link (line : text) : Z := str_find line anchor_close 0.

(** [cik] and [company_start] of one line that passed the test. *)
Definition line_cik (line : text) : text :=
  str_strip (slice line (start_link line) (end_link line)).
Definition line_company (line : text) : text :=
  str_strip (slice_from line (end_link line + 4)).

(** Body of the [for line in ...] loop. *)
Definition parse_line (data : dict) (line : text) : dict :=
  if str_in anchor_open line
  then dict_set data (line_cik line) (line_company line)
  else data.

Definition parse_table (pre_table : text) : dict :=
  fold_left parse_line (str_split nl pre_table) [].

(** [print(f"{cik:<10}: {company}")] *)
Definition print_record (rec : text * text) : text :=
  print (format_left (fst rec) 10 ++ lit ": " ++ snd rec).

Definition print_results (entry : text) (data : dict) : text :=
  print ([nl] ++ lit "Results for '" ++ entry ++ lit "':")
  ++ concat (map print_record data).

Definition print_missing (entry : text) : text :=
  print (lit "Error: Missing expected table for '" ++ entry ++ lit "'.").

(** What is left of one query once the response text is there: the
    text printed, and the mapping [data] when it was built. *)
Definition process_document (entry html_content : text)
    : text * option dict :=
  let pre_sections := extract_pre_sections html_content in
  if (1 <? length pre_sections)%nat then
    let pre_table := nth 1 pre_sections [] in
    let data := parse_table pre_table in
    (print_results entry data, Some data)
  else (print_missing entry, None).

(** Exceptions that can be raised while a query is processed, by the
    class that decides which [except] clause takes them: an
    [HTTPError] (a subclass of [URLError]), another [URLError], another
    instance of [Exception] (with its [str]), or an exception that is
    not an instance of [Exception] ([KeyboardInterrupt], [SystemExit]
    and the like, with the name of its class). *)
Inductive exn : Type :=
| HTTPError (code : Z) (reason : text)
| URLError (reason : text)
| OtherException (message : text)
| NotException (class_name : text).


(** The text that the [except] clause taking [e] gives to [print]; the
    three clauses are tried in the order of the source, and [None]
    means that none of them matches. *)
Definition report (entry : text) (e : exn) : option text :=
  match e with
  | HTTPError code reason =>
      Some (lit "HTTP Error for '" ++ entry ++ lit "': "
            ++ str_int code ++ lit " " ++ reason)
  | URLError reason =>
      Some (lit "URL Error for '" ++ entry ++ lit "': " ++ reason)
  | OtherException message =>
      Some (lit "Unexpected error for '" ++ entry ++ lit "': " ++ message)
  | NotException _ => None
  end.

(** The [except] clauses when the report can be written: what is
    printed, or [None] when no clause matches and the exception goes
    on. *)
Definition handle (entry : text) (e : exn) : option text :=
  option_map print (report entry e).

Section Driver.

(** The network.  The request is fixed by the query name (the URL is
    the base address with the encoded name, the headers are constant);
    what comes back is either the response text, unpacked when it was
    compressed and decoded, or the exception raised on the way to it. *)
Variable fetch : text -> exn + text.

(** One turn of the [for entry in search_entries] loop: the text
    printed, or the exception that leaves the [try] statement. *)
Definition query (entry : text) : exn + text :=
  match fetch entry with
  | inr html_content => inr (fst (process_document entry html_content))
  | inl e =>
      match handle entry e with
      | Some printed => inr printed
      | None => inl e
      end
  end.

(** The loop over the entries, in the order the set yields them.
    An exception that leaves a turn ends the run. *)
Fixpoint main_loop (entries : list text) (stdout : text)
    : text * option exn :=
  match entries with
  | [] => (stdout, None)
  | entry :: rest =>
      match query entry with
      | inr printed => main_loop rest (stdout ++ printed)
      | inl e => (stdout, Some e)
      end
  end.

Definition main (search_entries : list text) : text * option exn :=
  main_loop search_entries [].

End Driver.

(** *** The driver on a standard output that can refuse a text *)

(** The arguments of the [print] calls of the [try] body once the
    response text is there, in the order of the calls. *)
Definition body_prints (entry html_content : text) : list text :=
  let pre_sections := extract_pre_sections html_content in
  if (1 <? length pre_sections)%nat then
    let pre_table := nth 1 pre_sections [] in
    let data := parse_table pre_table in
    ([nl] ++ lit "Results for '" ++ entry ++ lit "':")
    :: map (fun rec => format_left (fst rec) 10 ++ lit ": " ++ snd rec) data
  else [lit "Error: Missing expected table for '" ++ entry ++ lit "'."].

Section Device.

(** Whether standard output takes a text (it does not when the text
    cannot be encoded for it), and the [str] of the exception that
    [print] raises when it does not; that exception is an instance of
    [Exception] and not a [URLError]. *)
Variable accepts : text -> bool.
Variable write_error : text -> text.

Variable fetch : text -> exn + text.

(** One call of [print]: the text and its newline are written, or
    nothing is and [print] raises. *)
Definition print_to (stdout s : text) : text * option exn :=
  if accepts s then (stdout ++ print s, None)
  else (stdout, Some (OtherException (write_error s))).

(** Calls of [print] one after the other, up to the first that
    raises. *)
Fixpoint print_each (lines : list text) (stdout : text)
    : text * option exn :=
  match lines with
  | [] => (stdout, None)
  | s :: rest =>
      match print_to stdout s with
      | (out, None) => print_each rest out
      | (out, Some e) => (out, Some e)
      end
  end.

(** The [try] body of one turn: standard output after it, and the
    exception it raised, if any. *)
Definition try_body (entry stdout : text) : text * option exn :=
  match fetch entry with
  | inl e => (stdout, Some e)
  | inr html_content => print_each (body_prints entry html_content) stdout
  end.


(** One turn of the loop: the [try] body, then the [except] clause
    that takes its exception; the [print] of that clause is outside any
    [try]. *)
Definition query_on (entry stdout : text) : text * option exn :=
  match try_body entry stdout with
  | (out, None) => (out, None)
  | (out, Some e) =>
      match report entry e with
      | Some line => print_to out line
      | None => (out, Some e)
      end
  end.

Fixpoint main_loop_on (entries : list text) (stdout : text)
    : text * option exn :=
  match entries with
  | [] => (stdout, None)
  | entry :: rest =>
      match query_on entry stdout with
      | (out, None) => main_loop_on rest out
      | (out, Some e) => (out, Some e)
      end
  end.

Definition main_on (search_entries : list text) : text * option exn :=
  main_loop_on search_entries [].

End Device.



(** *** Shapes of input *)

(** A text with one start/end pair for each element of [pairs]: the
    gap before the pair, then the block between its markers; [tail]
    follows the last pair. *)
Fixpoint document (pairs : list (text * text)) (tail : text) : text :=
  match pairs with
  | [] => tail
  | (gap, block) :: rest =>
      gap ++ start_tag ++ block ++ end_tag ++ document rest tail
  end.

(** No start marker in the gap that leads to a pair, and no end marker
    in its block. *)
Definition well_formed_pair (p : text * text) : bool :=
  negb (str_in start_tag (fst p)) && negb (str_in end_tag (snd p)).

(** Scan positions of two runs of the loop, one over a text and one
    over that text with more after it ([whole]): the same position, or
    the first run is through and the other is through too or at a
    start marker that no end marker follows. *)
Definition scan_related (whole : text) (start start_whole : Z) : Prop :=
  (exists a, start = Z.of_nat a /\ start_whole = start) \/
  (start = -1 /\
   (start_whole = -1 \/
    exists n, start_whole = Z.of_nat n /\
              str_find whole end_tag (Z.of_nat n) = -1)).

(** A line with one anchor: [before], the anchor open, [url], the
    close of the tag, [ident], the anchor close, [after]. *)
Definition anchor_line (before url ident after : text) : text :=
  before ++ anchor_open ++ url ++ quote_gt ++ ident ++ anchor_close
  ++ after.

(** The turns of the scan loop as a relation: from the scan position
    [start] (a start marker, or [-1]) the loop adds [blocks]. *)
Inductive scan (html : text) : Z -> list text -> Prop :=
| scan_done : scan html (-1) []
| scan_break a :
    occ start_tag html a = true ->
    str_find html end_tag (Z.of_nat a) = -1 ->
    scan html (Z.of_nat a) []
| scan_step a e blocks :
    occ start_tag html a = true ->
    str_find html end_tag (Z.of_nat a) = Z.of_nat e ->
    scan html (str_find html start_tag (Z.of_nat e)) blocks ->
    scan html (Z.of_nat a)
      (str_strip (slice html (Z.of_nat (a + 5)) (Z.of_nat e)) :: blocks).

(** A result of [find] in a text, seen from a longer text that has [p]
    more characters in front. *)
Definition shift (p : nat) (z : Z) : Z :=
  if z =? -1 then -1 else Z.of_nat p + z.

(** The lines of a block that pass the test of the record parser. *)
Definition anchor_lines (pre_table : text) : list text :=
  filter (str_in anchor_open) (str_split nl pre_table).

(** *** The specification's wording, for comparison *)

(** The identifier as section 4.2 words it: the first [quote_gt] after
    the anchor open, then the first [anchor_close] after that. *)
Definition spec_identifier (line : text) : text :=
  let a := str_find line anchor_open 0 in
  let q := str_find line quote_gt (a + len anchor_open) in
  let e := str_find line anchor_close (q + 2) in
  slice line (q + 2) e.

(** The identifier field read as padded on the left and cut to ten
    characters. *)
Definition spec_field_left_padded (cik : text) : text :=
  repeat space (10 - length cik)%nat ++ firstn 10 cik.

End CikLookup.

Import PyStr PyDict CikLookup.

(** * Properties of the string operations *)

Section StringFacts.

Implicit Types (s sub u v : text) (j k a b : nat).

Lemma text_eqb_eq s t : text_eqb s t = true <-> s = t.
Proof.
  revert t; induction s as [|c s IH]; intros [|d t]; simpl;
    try (split; (discriminate || reflexivity)).
  rewrite andb_true_iff, N.eqb_eq, IH.
  split; [intros [-> ->]; reflexivity | intros [= -> ->]; auto].
Qed.

Lemma text_eqb_refl s : text_eqb s s = true.
Proof. apply text_eqb_eq; reflexivity. Qed.

Lemma text_eqb_neq s t : text_eqb s t = false <-> s <> t.
Proof.
  rewrite <- text_eqb_eq. destruct (text_eqb s t); split; congruence.
Qed.

Lemma startswith_app sub v : startswith sub (sub ++ v) = true.
Proof.
  induction sub as [|c sub IH]; simpl; [reflexivity|].
  now rewrite N.eqb_refl.
Qed.

Lemma startswith_length sub s :
  startswith sub s = true -> (length sub <= length s)%nat.
Proof.
  revert s; induction sub as [|c sub IH]; intros [|d s]; simpl;
    try (intros; lia); try discriminate.
  rewrite andb_true_iff. intros [_ H]. apply IH in H. lia.
Qed.

Lemma startswith_nth sub s k :
  startswith sub s = true -> (k < length sub)%nat ->
  nth_error s k = nth_error sub k.
Proof.
  revert s k; induction sub as [|c sub IH]; intros [|d s] k; simpl;
    try (intros; lia); try discriminate.
  rewrite andb_true_iff, N.eqb_eq. intros [-> H] Hk.
  destruct k as [|k]; simpl; [reflexivity|]. apply IH; [assumption|lia].
Qed.

Lemma startswith_app_l sub u v :
  (length sub <= length u)%nat ->
  startswith sub (u ++ v) = startswith sub u.
Proof.
  revert u; induction sub as [|c sub IH]; intros [|d u]; simpl;
    try reflexivity; try (intros; lia).
  intros H. rewrite IH by lia. reflexivity.
Qed.

Lemma occ_bound sub s j :
  sub <> [] -> occ sub s j = true -> (j + length sub <= length s)%nat.
Proof.
  unfold occ. intros Hne H. apply startswith_length in H.
  rewrite length_skipn in H. destruct sub; [congruence|]. simpl in *. lia.
Qed.

Lemma occ_app_l sub u v j :
  (j + length sub <= length u)%nat ->
  occ sub (u ++ v) j = occ sub u j.
Proof.
  unfold occ. intros H. rewrite skipn_app.
  replace (j - length u)%nat with 0%nat by lia. rewrite skipn_0.
  apply startswith_app_l. rewrite length_skipn. lia.
Qed.

Lemma occ_app_r sub u v j :
  occ sub (u ++ v) (length u + j) = occ sub v j.
Proof.
  unfold occ. rewrite skipn_app, skipn_all2 by lia.
  replace (length u + j - length u)%nat with j by lia. reflexivity.
Qed.

Lemma occ_here sub u v : occ sub (u ++ sub ++ v) (length u) = true.
Proof.
  replace (length u) with (length u + 0)%nat by lia.
  rewrite occ_app_r. unfold occ. rewrite skipn_0. apply startswith_app.
Qed.

Lemma occ_nth sub s j k :
  occ sub s j = true -> (k < length sub)%nat ->
  nth_error s (j + k) = nth_error sub k.
Proof.
  unfold occ. intros H Hk. rewrite <- nth_error_skipn.
  now apply startswith_nth.
Qed.

(** Two markers that begin with the same character [h], which the
    first one does not repeat, never overlap. *)
Lemma occ_disjoint h tl1 tl2 s j k :
  ~ In h tl1 ->
  occ (h :: tl1) s j = true -> occ (h :: tl2) s k = true ->
  (j < k)%nat -> (j + length (h :: tl1) <= k)%nat.
Proof.
  intros Hh Hj Hk Hlt.
  destruct (Nat.le_gt_cases (j + length (h :: tl1)) k) as [|Hov];
    [assumption|exfalso].
  pose proof (occ_nth _ _ _ 0 Hk ltac:(simpl; lia)) as E0.
  pose proof (occ_nth _ _ _ (k - j) Hj ltac:(lia)) as E1.
  replace (j + (k - j))%nat with (k + 0)%nat in E1 by lia.
  rewrite E0 in E1. simpl in E1.
  destruct (k - j)%nat as [|m] eqn:Hm; [lia|]. simpl in E1.
  symmetry in E1. apply nth_error_In in E1. contradiction.
Qed.

Lemma occ_beyond sub s j :
  sub <> [] -> (length s <= j)%nat -> occ sub s j = false.
Proof.
  unfold occ. intros Hne H. rewrite skipn_all2 by assumption.
  destruct sub; [congruence | reflexivity].
Qed.

Lemma find_at_cases sub s i :
  (find_at sub s i = -1 /\
   forall k, (k <= length s)%nat -> occ sub s k = false) \/
  (exists k, (k <= length s)%nat /\ find_at sub s i = i + Z.of_nat k /\
     occ sub s k = true /\
     forall k', (k' < k)%nat -> occ sub s k' = false).
Proof.
  revert i; induction s as [|c s IH]; intros i; simpl.
  - destruct (startswith sub []) eqn:E.
    + right. exists 0%nat.
      split; [simpl; lia | split; [lia | split; [exact E | intros; lia]]].
    + left. split; [reflexivity|]. intros k _. unfold occ.
      now rewrite skipn_nil.
  - destruct (startswith sub (c :: s)) eqn:E.
    + right. exists 0%nat.
      split; [simpl; lia | split; [lia | split; [exact E | intros; lia]]].
    + destruct (IH (i + 1)) as [[Hr Hn] | (k & Hk & Hr & Ho & Hn)].
      * left. split; [assumption|]. intros [|k] Hk; [exact E|].
        apply Hn. lia.
      * right. exists (S k).
        split; [lia | split; [lia | split; [exact Ho |]]].
        intros [|k'] Hlt; [exact E|]. apply Hn. lia.
Qed.

Lemma norm_index_nat s a :
  (a <= length s)%nat -> norm_index (len s) (Z.of_nat a) = Z.of_nat a.
Proof.
  unfold norm_index, len. intros H.
  destruct (Z.ltb_spec (Z.of_nat a) 0); lia.
Qed.

Lemma str_find_nat s sub a :
  (a <= length s)%nat ->
  str_find s sub (Z.of_nat a) = find_at sub (skipn a s) (Z.of_nat a).
Proof.
  intros H. unfold str_find. rewrite norm_index_nat by assumption.
  rewrite Nat2Z.id. unfold len.
  destruct (Z.ltb_spec (Z.of_nat (length s)) (Z.of_nat a)); [lia|].
  reflexivity.
Qed.

(** What [find] returns, for a pattern that is not empty: either no
    occurrence from [a] on and [-1], or the first one. *)
Lemma str_find_cases s sub a :
  sub <> [] ->
  (str_find s sub (Z.of_nat a) = -1 /\
   forall j, (a <= j)%nat -> occ sub s j = false) \/
  (exists j, str_find s sub (Z.of_nat a) = Z.of_nat j /\ (a <= j)%nat /\
     occ sub s j = true /\
     forall j', (a <= j' < j)%nat -> occ sub s j' = false).
Proof.
  intros Hne. destruct (Nat.le_gt_cases a (length s)) as [Ha|Ha].
  - rewrite str_find_nat by assumption.
    destruct (find_at_cases sub (skipn a s) (Z.of_nat a))
      as [[Hr Hn] | (k & Hk & Hr & Ho & Hn)].
    + left. split; [assumption|]. intros j Hj.
      destruct (Nat.le_gt_cases j (length s)) as [Hjl|Hjl].
      * specialize (Hn (j - a)%nat). rewrite length_skipn in Hn.
        unfold occ in *. rewrite skipn_skipn in Hn.
        replace (j - a + a)%nat with j in Hn by lia. apply Hn. lia.
      * apply occ_beyond; [assumption | lia].
    + right. exists (a + k)%nat. unfold occ in *.
      rewrite skipn_skipn in Ho. rewrite (Nat.add_comm a k).
      split; [lia | split; [lia | split; [exact Ho |]]].
      intros j' Hj'. specialize (Hn (j' - a)%nat).
      rewrite skipn_skipn in Hn.
      replace (j' - a + a)%nat with j' in Hn by lia. apply Hn. lia.
  - left. split.
    + unfold str_find, len.
      destruct (Z.ltb_spec (Z.of_nat (length s)) (Z.of_nat a));
        [reflexivity | lia].
    + intros j Hj. apply occ_beyond; [assumption | lia].
Qed.

Lemma str_find_hit s sub a j :
  sub <> [] -> (a <= j)%nat -> occ sub s j = true ->
  (forall j', (a <= j' < j)%nat -> occ sub s j' = false) ->
  str_find s sub (Z.of_nat a) = Z.of_nat j.
Proof.
  intros Hne Haj Ho Hn.
  destruct (str_find_cases s sub a Hne)
    as [[_ Hn'] | (j0 & -> & H0 & Ho0 & Hn0)].
  - rewrite Hn' in Ho by assumption. discriminate.
  - destruct (Nat.lt_trichotomy j0 j) as [Hlt | [-> | Hgt]]; [|reflexivity|].
    + rewrite Hn in Ho0 by lia. discriminate.
    + rewrite Hn0 in Ho by lia. discriminate.
Qed.

Lemma str_find_miss s sub a :
  sub <> [] -> (forall j, (a <= j)%nat -> occ sub s j = false) ->
  str_find s sub (Z.of_nat a) = -1.
Proof.
  intros Hne Hn.
  destruct (str_find_cases s sub a Hne) as [[H _] | (j0 & _ & H0 & Ho0 & _)];
    [assumption|].
  rewrite Hn in Ho0 by assumption. discriminate.
Qed.

(** [find] only looks at the occurrences from its start index on. *)
Lemma str_find_ext s s' sub a :
  sub <> [] ->
  (forall j, (a <= j)%nat -> occ sub s j = occ sub s' j) ->
  str_find s sub (Z.of_nat a) = str_find s' sub (Z.of_nat a).
Proof.
  intros Hne Hext.
  destruct (str_find_cases s' sub a Hne)
    as [[-> Hn] | (j0 & -> & H0 & Ho0 & Hn0)].
  - apply str_find_miss; [assumption|]. intros j Hj.
    rewrite Hext by assumption. now apply Hn.
  - apply str_find_hit; try assumption.
    + now rewrite Hext.
    + intros j' Hj'. rewrite Hext by lia. now apply Hn0.
Qed.

Lemma str_find_skip s sub a b :
  sub <> [] -> (a <= b)%nat ->
  (forall j, (a <= j < b)%nat -> occ sub s j = false) ->
  str_find s sub (Z.of_nat a) = str_find s sub (Z.of_nat b).
Proof.
  intros Hne Hab Hn.
  destruct (str_find_cases s sub b Hne)
    as [[-> Hn'] | (j0 & -> & H0 & Ho0 & Hn0)].
  - apply str_find_miss; [assumption|]. intros j Hj.
    destruct (Nat.lt_ge_cases j b); [apply Hn; lia | apply Hn'; lia].
  - apply str_find_hit; try assumption; [lia|].
    intros j' Hj'.
    destruct (Nat.lt_ge_cases j' b); [apply Hn; lia | apply Hn0; lia].
Qed.

Lemma str_in_false_occ sub s j :
  sub <> [] -> str_in sub s = false -> occ sub s j = false.
Proof.
  unfold str_in. intros Hne H.
  destruct (str_find_cases s sub 0 Hne) as [[_ Hn] | (j0 & E & _)].
  - apply Hn. lia.
  - change (Z.of_nat 0) with 0 in E. rewrite E in H.
    destruct (Z.eqb_spec (Z.of_nat j0) (-1)); [lia | discriminate].
Qed.

Lemma str_in_true_occ sub s j :
  sub <> [] -> occ sub s j = true -> str_in sub s = true.
Proof.
  intros Hne Ho. destruct (str_in sub s) eqn:E; [reflexivity|].
  rewrite (str_in_false_occ sub s j Hne E) in Ho. discriminate.
Qed.

End StringFacts.

Section SliceFacts.

Implicit Types (s u v w : text) (a b : nat).

Lemma slice_nat s a b :
  (a <= length s)%nat -> (b <= length s)%nat ->
  slice s (Z.of_nat a) (Z.of_nat b) = firstn (b - a) (skipn a s).
Proof.
  intros Ha Hb. unfold slice. rewrite !norm_index_nat by assumption.
  rewrite Nat2Z.id. f_equal. lia.
Qed.

Lemma slice_app_mid u w v :
  slice (u ++ w ++ v) (len u) (len u + len w) = w.
Proof.
  unfold len. rewrite <- Nat2Z.inj_add.
  rewrite slice_nat by (rewrite !length_app; lia).
  rewrite skipn_app, skipn_all2 by lia.
  replace (length u - length u)%nat with 0%nat by lia.
  replace (length u + length w - length u)%nat with (length w) by lia.
  simpl. rewrite firstn_app, firstn_all2 by lia.
  replace (length w - length w)%nat with 0%nat by lia.
  rewrite firstn_0. apply app_nil_r.
Qed.

Lemma slice_app_l u v a b :
  (a <= length u)%nat -> (b <= length u)%nat ->
  slice (u ++ v) (Z.of_nat a) (Z.of_nat b) = slice u (Z.of_nat a) (Z.of_nat b).
Proof.
  intros Ha Hb.
  rewrite !slice_nat by (rewrite ?length_app; lia).
  rewrite skipn_app. replace (a - length u)%nat with 0%nat by lia.
  rewrite skipn_0, firstn_app, length_skipn.
  destruct (Nat.le_gt_cases a b).
  - replace (b - a - (length u - a))%nat with 0%nat by lia.
    rewrite firstn_0. apply app_nil_r.
  - replace (b - a)%nat with 0%nat by lia. reflexivity.
Qed.

Lemma slice_from_nat s a :
  (a <= length s)%nat -> slice_from s (Z.of_nat a) = skipn a s.
Proof.
  intros Ha. unfold slice_from. rewrite norm_index_nat by assumption.
  now rewrite Nat2Z.id.
Qed.

Lemma slice_from_app u v : slice_from (u ++ v) (len u) = v.
Proof.
  unfold len. rewrite slice_from_nat by (rewrite length_app; lia).
  rewrite skipn_app, skipn_all2 by lia.
  now replace (length u - length u)%nat with 0%nat by lia.
Qed.

(** A slice that ends at [-1] drops the last character. *)
Lemma slice_to_minus_one s a :
  (a <= length s)%nat ->
  slice s (Z.of_nat a) (-1) = removelast (skipn a s).
Proof.
  intros Ha. unfold slice. rewrite norm_index_nat by assumption.
  rewrite Nat2Z.id. unfold norm_index, len.
  change (-1 <? 0) with true. cbv iota.
  rewrite removelast_firstn_len, length_skipn. f_equal. lia.
Qed.

End SliceFacts.

(** * The block extractor *)

Section Markers.

Implicit Types (s : text) (j k : nat).

Lemma start_tag_ne : start_tag <> [].
Proof. discriminate. Qed.

Lemma end_tag_ne : end_tag <> [].
Proof. discriminate. Qed.

(** Both markers begin with [<] and have no other [<]. *)
Lemma tags_clash s j :
  occ start_tag s j = true -> occ end_tag s j = true -> False.
Proof.
  intros Hs He.
  pose proof (occ_nth _ _ _ 1 Hs ltac:(simpl; lia)) as E1.
  pose proof (occ_nth _ _ _ 1 He ltac:(simpl; lia)) as E2.
  rewrite E1 in E2. discriminate.
Qed.

Lemma start_then_start s j k :
  occ start_tag s j = true -> occ start_tag s k = true ->
  (j < k)%nat -> (j + 5 <= k)%nat.
Proof.
  intros Hj Hk.
  apply (occ_disjoint 60%N (lit "pre>") (lit "pre>") s j k); trivial.
  simpl; intuition discriminate.
Qed.

Lemma start_then_end s j k :
  occ start_tag s j = true -> occ end_tag s k = true ->
  (j <= k)%nat -> (j + 5 <= k)%nat.
Proof.
  intros Hj Hk Hle.
  destruct (Nat.eq_dec j k) as [->|Hne]; [destruct (tags_clash s k Hj Hk)|].
  apply (occ_disjoint 60%N (lit "pre>") (lit "/pre>") s j k); trivial;
    [simpl; intuition discriminate | lia].
Qed.

Lemma end_then_start s j k :
  occ end_tag s j = true -> occ start_tag s k = true ->
  (j <= k)%nat -> (j + 6 <= k)%nat.
Proof.
  intros Hj Hk Hle.
  destruct (Nat.eq_dec j k) as [->|Hne]; [destruct (tags_clash s k Hk Hj)|].
  apply (occ_disjoint 60%N (lit "/pre>") (lit "pre>") s j k); trivial;
    [simpl; intuition discriminate | lia].
Qed.

Lemma end_then_end s j k :
  occ end_tag s j = true -> occ end_tag s k = true ->
  (j < k)%nat -> (j + 6 <= k)%nat.
Proof.
  intros Hj Hk.
  apply (occ_disjoint 60%N (lit "/pre>") (lit "/pre>") s j k); trivial.
  simpl; intuition discriminate.
Qed.

End Markers.

Section ExtractLoop.

Implicit Types (html : text) (acc : list text) (a e n : nat).

Lemma extract_loop_unfold fuel html start acc :
  extract_loop (S fuel) html start acc =
  if start =? -1 then Some acc
  else
    let end_ := str_find html end_tag start in
    if negb (end_ =? -1) then
      extract_loop fuel html (str_find html start_tag end_)
        (acc ++ [str_strip (slice html (start + len start_tag) end_)])
    else Some acc.
Proof. reflexivity. Qed.

Lemma extract_loop_done fuel html acc :
  extract_loop (S fuel) html (-1) acc = Some acc.
Proof. reflexivity. Qed.

(** One turn from a start position [a] at which an end marker is
    found at [e]. *)
Lemma extract_loop_step fuel html a e acc :
  str_find html end_tag (Z.of_nat a) = Z.of_nat e ->
  extract_loop (S fuel) html (Z.of_nat a) acc =
  extract_loop fuel html (str_find html start_tag (Z.of_nat e))
    (acc ++ [str_strip (slice html (Z.of_nat (a + 5)) (Z.of_nat e))]).
Proof.
  intros He. rewrite extract_loop_unfold.
  destruct (Z.eqb_spec (Z.of_nat a) (-1)); [lia|].
  cbv zeta. rewrite He.
  destruct (Z.eqb_spec (Z.of_nat e) (-1)); [lia|]. simpl negb. cbv iota.
  change (len start_tag) with 5.
  replace (Z.of_nat a + 5) with (Z.of_nat (a + 5)) by lia. reflexivity.
Qed.

(** One turn from a start position that no end marker follows. *)
Lemma extract_loop_break fuel html a acc :
  str_find html end_tag (Z.of_nat a) = -1 ->
  extract_loop (S fuel) html (Z.of_nat a) acc = Some acc.
Proof.
  intros He. rewrite extract_loop_unfold.
  destruct (Z.eqb_spec (Z.of_nat a) (-1)); [lia|].
  cbv zeta. rewrite He. reflexivity.
Qed.

Lemma extract_loop_mono fuel : forall fuel' html start acc r,
  (fuel <= fuel')%nat ->
  extract_loop fuel html start acc = Some r ->
  extract_loop fuel' html start acc = Some r.
Proof.
  induction fuel as [|fuel IH]; intros fuel' html start acc r Hle H;
    [discriminate|].
  destruct fuel' as [|fuel']; [lia|].
  rewrite extract_loop_unfold in *.
  destruct (start =? -1); [assumption|]. cbv zeta in *.
  destruct (negb _); [|assumption].
  apply IH; [lia | assumption].
Qed.

(** Enough fuel: more turns than characters from the scan position to
    the end of the text. *)
Lemma extract_loop_total fuel : forall html start a acc,
  (start = -1 /\ (0 < fuel)%nat) \/
  (start = Z.of_nat a /\ (length html - a < fuel)%nat) ->
  exists r, extract_loop fuel html start acc = Some r.
Proof.
  induction fuel as [|fuel IH]; intros html start a acc H; [lia|].
  destruct H as [[-> _] | [-> Hf]]; [eexists; apply extract_loop_done|].
  destruct (str_find_cases html end_tag a end_tag_ne)
    as [[He _] | (e & He & Hae & Hoe & _)].
  - eexists. now apply extract_loop_break.
  - rewrite (extract_loop_step _ _ _ _ _ He).
    pose proof (occ_bound _ _ _ end_tag_ne Hoe) as Hb. simpl in Hb.
    destruct (str_find_cases html start_tag e start_tag_ne)
      as [[-> _] | (n & -> & Hen & Hon & _)].
    + apply (IH html (-1) 0%nat). left. split; [reflexivity | lia].
    + pose proof (end_then_start _ _ _ Hoe Hon Hen).
      apply (IH html _ n). right. split; [reflexivity | lia].
Qed.

Lemma extract_run_total html : exists r, extract_run html = Some r.
Proof.
  unfold extract_run.
  destruct (str_find_cases html start_tag 0 start_tag_ne)
    as [[E _] | (n & E & _)]; change (Z.of_nat 0) with 0 in E; rewrite E.
  - eexists; apply extract_loop_done.
  - apply (extract_loop_total _ html _ n). right. split; [reflexivity | lia].
Qed.

Lemma extract_pre_sections_run html :
  extract_run html = Some (extract_pre_sections html).
Proof.
  unfold extract_pre_sections.
  destruct (extract_run_total html) as [r ->]. reflexivity.
Qed.

(** Whatever fuel a run of the loop succeeded with, [extract_run] has
    at least as good a result. *)
Lemma extract_run_from_loop fuel html r :
  extract_loop fuel html (str_find html start_tag 0) [] = Some r ->
  extract_run html = Some r.
Proof.
  intros H. destruct (extract_run_total html) as [r' Hr'].
  rewrite Hr'. unfold extract_run in Hr'.
  destruct (Nat.le_ge_cases fuel (S (length html))) as [Hle|Hle].
  - rewrite (extract_loop_mono _ _ _ _ _ _ Hle H) in Hr'. congruence.
  - rewrite (extract_loop_mono _ _ _ _ _ _ Hle Hr') in H. congruence.
Qed.

End ExtractLoop.

Section FirstOccurrence.

Variables (h : char) (tl : text).
Hypothesis head_once : ~ In h tl.
Let sub : text := h :: tl.

Implicit Types (pre gap rest : text).

(** After a gap without the marker, the marker that follows is the
    first one found. *)
Lemma str_find_after_gap pre gap rest :
  str_in sub gap = false ->
  str_find (pre ++ gap ++ sub ++ rest) sub (Z.of_nat (length pre)) =
  Z.of_nat (length pre + length gap).
Proof.
  intros Hgap. assert (Hne : sub <> []) by discriminate.
  assert (Hhere : occ sub (pre ++ gap ++ sub ++ rest)
                    (length pre + length gap) = true).
  { rewrite app_assoc, <- length_app. apply occ_here. }
  apply str_find_hit; [assumption | lia | assumption |].
  intros j Hj. destruct (occ sub _ j) eqn:Ho; [exfalso | reflexivity].
  pose proof (occ_disjoint h tl tl _ j _ head_once Ho Hhere ltac:(lia)) as Hd.
  rewrite app_assoc, occ_app_l in Ho by (rewrite length_app; exact Hd).
  replace j with (length pre + (j - length pre))%nat in Ho by lia.
  rewrite occ_app_r, (str_in_false_occ sub gap _ Hne Hgap) in Ho.
  discriminate.
Qed.

Lemma str_find_in_tail pre rest :
  str_in sub rest = false ->
  str_find (pre ++ rest) sub (Z.of_nat (length pre)) = -1.
Proof.
  intros Hrest. assert (Hne : sub <> []) by discriminate.
  apply str_find_miss; [assumption|]. intros j Hj.
  replace j with (length pre + (j - length pre))%nat by lia.
  rewrite occ_app_r. now apply str_in_false_occ.
Qed.

End FirstOccurrence.

Section WellFormedDocuments.

Implicit Types (pairs : list (text * text)) (pre tail : text).

Lemma length_start_tag : length start_tag = 5%nat.
Proof. reflexivity. Qed.

Lemma length_end_tag : length end_tag = 6%nat.
Proof. reflexivity. Qed.

Lemma not_in_start_tail : ~ In 60%N (lit "pre>").
Proof. simpl; intuition discriminate. Qed.

Lemma not_in_end_tail : ~ In 60%N (lit "/pre>").
Proof. simpl; intuition discriminate. Qed.

(** The end marker is looked for from the start marker itself, which
    it cannot overlap. *)
Lemma str_find_end_skips_start html a :
  occ start_tag html a = true ->
  str_find html end_tag (Z.of_nat a) =
  str_find html end_tag (Z.of_nat (a + 5)).
Proof.
  intros Ha. apply str_find_skip; [apply end_tag_ne | lia |].
  intros j Hj. destruct (occ end_tag html j) eqn:Ho; [|reflexivity].
  pose proof (start_then_end _ _ _ Ha Ho ltac:(lia)). lia.
Qed.

(** The next start marker is looked for from the end marker itself. *)
Lemma str_find_start_skips_end html e :
  occ end_tag html e = true ->
  str_find html start_tag (Z.of_nat e) =
  str_find html start_tag (Z.of_nat (e + 6)).
Proof.
  intros He. apply str_find_skip; [apply start_tag_ne | lia |].
  intros j Hj. destruct (occ start_tag html j) eqn:Ho; [|reflexivity].
  pose proof (end_then_start _ _ _ He Ho ltac:(lia)). lia.
Qed.

Lemma document_cons gap block pairs tail :
  document ((gap, block) :: pairs) tail =
  gap ++ start_tag ++ block ++ end_tag ++ document pairs tail.
Proof. reflexivity. Qed.

Lemma extract_loop_document pairs : forall pre tail acc fuel,
  forallb well_formed_pair pairs = true ->
  str_in start_tag tail = false ->
  (length pairs < fuel)%nat ->
  extract_loop fuel (pre ++ document pairs tail)
    (str_find (pre ++ document pairs tail) start_tag
       (Z.of_nat (length pre))) acc =
  Some (acc ++ map (fun p => str_strip (snd p)) pairs).
Proof.
  induction pairs as [|[gap block] pairs IH];
    intros pre tail acc fuel Hwf Htail Hfuel.
  - change (document [] tail) with tail.
    rewrite (str_find_in_tail 60%N (lit "pre>")) by assumption.
    destruct fuel; [simpl in Hfuel; lia|].
    rewrite extract_loop_done, app_nil_r. reflexivity.
  - simpl in Hwf. apply andb_true_iff in Hwf as [Hp Hwf].
    unfold well_formed_pair in Hp. simpl in Hp.
    apply andb_true_iff in Hp as [Hg Hb].
    apply negb_true_iff in Hg, Hb.
    destruct fuel as [|fuel]; [simpl in Hfuel; lia|]. simpl in Hfuel.
    rewrite document_cons.
    set (rest := document pairs tail).
    set (html := pre ++ gap ++ start_tag ++ block ++ end_tag ++ rest).
    assert (Hs : str_find html start_tag (Z.of_nat (length pre)) =
                 Z.of_nat (length pre + length gap)).
    { apply (str_find_after_gap 60%N (lit "pre>") not_in_start_tail).
      assumption. }
    assert (Hos : occ start_tag html (length pre + length gap) = true).
    { unfold html. rewrite app_assoc, <- length_app. apply occ_here. }
    assert (E1 : html = (pre ++ gap ++ start_tag) ++ block ++ end_tag ++ rest).
    { unfold html. now rewrite <- !app_assoc. }
    assert (L1 : length (pre ++ gap ++ start_tag) =
                 (length pre + length gap + 5)%nat).
    { rewrite !length_app, length_start_tag. lia. }
    assert (He : str_find html end_tag (Z.of_nat (length pre + length gap)) =
                 Z.of_nat (length pre + length gap + 5 + length block)).
    { rewrite str_find_end_skips_start by assumption.
      rewrite <- L1, E1.
      rewrite (str_find_after_gap 60%N (lit "/pre>") not_in_end_tail)
        by assumption.
      reflexivity. }
    assert (Hoe : occ end_tag html
                    (length pre + length gap + 5 + length block) = true).
    { rewrite E1, app_assoc, <- L1, <- length_app. apply occ_here. }
    rewrite Hs, (extract_loop_step _ _ _ _ _ He).
    rewrite str_find_start_skips_end by assumption.
    assert (E2 : html =
                 (pre ++ gap ++ start_tag ++ block ++ end_tag) ++ rest).
    { unfold html. now rewrite <- !app_assoc. }
    assert (L2 : length (pre ++ gap ++ start_tag ++ block ++ end_tag) =
                 (length pre + length gap + 5 + length block + 6)%nat).
    { rewrite !length_app, length_start_tag, length_end_tag. lia. }
    assert (Hslice :
              slice html (Z.of_nat (length pre + length gap + 5))
                (Z.of_nat (length pre + length gap + 5 + length block))
              = block).
    { rewrite E1, <- L1, Nat2Z.inj_add. apply slice_app_mid. }
    rewrite Hslice, <- L2, E2.
    unfold rest. rewrite IH by (assumption || lia).
    rewrite <- app_assoc. reflexivity.
Qed.

End WellFormedDocuments.

(** A start marker that no end marker follows: the text is [t1], the
    marker, and [t2] without any end marker. *)
Section UnmatchedStart.

Variables t1 t2 : text.
Hypothesis no_end : str_in end_tag t2 = false.

Let whole : text := t1 ++ start_tag ++ t2.

Lemma unmatched_start_here : occ start_tag whole (length t1) = true.
Proof. apply occ_here. Qed.

(** The end markers of the whole text are those of [t1]. *)
Lemma unmatched_end_occ j : occ end_tag whole j = occ end_tag t1 j.
Proof.
  destruct (occ end_tag whole j) eqn:Ho.
  - destruct (Nat.lt_ge_cases j (length t1)) as [Hlt|Hge].
    + pose proof (end_then_start _ _ _ Ho unmatched_start_here ltac:(lia)).
      unfold whole in Ho. rewrite occ_app_l in Ho by assumption.
      now symmetry.
    + pose proof (start_then_end _ _ _ unmatched_start_here Ho Hge) as Hd.
      exfalso. unfold whole in Ho. rewrite app_assoc in Ho.
      replace j with (length (t1 ++ start_tag) + (j - length t1 - 5))%nat
        in Ho by (rewrite length_app, length_start_tag; lia).
      rewrite occ_app_r in Ho.
      rewrite (str_in_false_occ _ _ _ end_tag_ne no_end) in Ho.
      discriminate.
  - destruct (occ end_tag t1 j) eqn:Ho1; [|reflexivity].
    pose proof (occ_bound _ _ _ end_tag_ne Ho1).
    unfold whole in Ho. rewrite occ_app_l in Ho by assumption. congruence.
Qed.

Lemma unmatched_start_occ_l j :
  occ start_tag t1 j = true -> occ start_tag whole j = true.
Proof.
  intros Ho. pose proof (occ_bound _ _ _ start_tag_ne Ho).
  unfold whole. now rewrite occ_app_l.
Qed.

Lemma unmatched_start_occ_r j :
  occ start_tag whole j = true -> (j + 5 <= length t1)%nat ->
  occ start_tag t1 j = true.
Proof.
  intros Ho Hj. unfold whole in Ho. now rewrite occ_app_l in Ho.
Qed.

Lemma unmatched_find_end a :
  str_find whole end_tag (Z.of_nat a) = str_find t1 end_tag (Z.of_nat a).
Proof.
  apply str_find_ext; [apply end_tag_ne|]. intros j _.
  apply unmatched_end_occ.
Qed.

Lemma unmatched_find_start e :
  scan_related whole (str_find t1 start_tag (Z.of_nat e))
               (str_find whole start_tag (Z.of_nat e)).
Proof.
  destruct (str_find_cases t1 start_tag e start_tag_ne)
    as [[E1 Hn1] | (n & E1 & Hen & Hon & Hbefore)]; rewrite E1.
  - right. split; [reflexivity|].
    destruct (str_find_cases whole start_tag e start_tag_ne)
      as [[-> _] | (n & -> & Hen & Hon & _)]; [now left | right].
    exists n. split; [reflexivity|].
    apply str_find_miss; [apply end_tag_ne|]. intros j Hj.
    destruct (occ end_tag whole j) eqn:Ho; [exfalso | reflexivity].
    pose proof (start_then_end _ _ _ Hon Ho Hj).
    rewrite unmatched_end_occ in Ho.
    pose proof (occ_bound _ _ _ end_tag_ne Ho) as Hb.
    rewrite length_end_tag in Hb.
    pose proof (unmatched_start_occ_r n Hon ltac:(lia)) as Ho1.
    rewrite (Hn1 n Hen) in Ho1. discriminate.
  - left. exists n. split; [reflexivity|].
    apply str_find_hit;
      [apply start_tag_ne | assumption | now apply unmatched_start_occ_l |].
    intros j Hj.
    destruct (occ start_tag whole j) eqn:Ho; [exfalso | reflexivity].
    pose proof (occ_bound _ _ _ start_tag_ne Hon) as Hb.
    rewrite length_start_tag in Hb.
    pose proof (unmatched_start_occ_r j Ho ltac:(lia)) as Ho1.
    rewrite (Hbefore j Hj) in Ho1. discriminate.
Qed.

Lemma unmatched_loop fuel : forall start start_whole acc r,
  scan_related whole start start_whole ->
  extract_loop fuel t1 start acc = Some r ->
  extract_loop (S fuel) whole start_whole acc = Some r.
Proof.
  induction fuel as [|fuel IH]; intros start start_whole acc r Hrel Hrun;
    [discriminate|].
  destruct Hrel as [(a & -> & ->) | [-> Hw]].
  - destruct (str_find_cases t1 end_tag a end_tag_ne)
      as [[He _] | (e & He & Hae & Hoe & _)].
    + rewrite (extract_loop_break _ _ _ _ He) in Hrun.
      rewrite <- unmatched_find_end in He.
      now rewrite (extract_loop_break _ _ _ _ He).
    + rewrite (extract_loop_step _ _ _ _ _ He) in Hrun.
      pose proof (occ_bound _ _ _ end_tag_ne Hoe) as Hb.
      rewrite length_end_tag in Hb.
      rewrite <- unmatched_find_end in He.
      rewrite (extract_loop_step _ _ _ _ _ He).
      unfold whole at 3. rewrite slice_app_l by lia.
      apply (IH _ _ _ _ (unmatched_find_start e) Hrun).
  - rewrite extract_loop_done in Hrun.
    destruct Hw as [-> | (n & -> & He)].
    + now rewrite extract_loop_done.
    + now rewrite (extract_loop_break _ _ _ _ He).
Qed.

Lemma unmatched_run : extract_run whole = extract_run t1.
Proof.
  destruct (extract_run_total t1) as [r Hr]. rewrite Hr.
  unfold extract_run in Hr.
  apply (extract_run_from_loop (S (S (length t1)))).
  apply (unmatched_loop _ _ _ _ _ (unmatched_find_start 0) Hr).
Qed.

End UnmatchedStart.

Lemma document_app pairs : forall tail more,
  document pairs tail ++ more = document pairs (tail ++ more).
Proof.
  induction pairs as [|[gap block] pairs IH]; intros tail more;
    [reflexivity|].
  rewrite !document_cons, <- !app_assoc. now rewrite IH.
Qed.

(** * The record parser *)

Section FindFacts.

Implicit Types (s sub : text) (a j : nat).

(** The result of [find], whatever the start index. *)
Lemma str_find_result s sub start :
  sub <> [] ->
  str_find s sub start = -1 \/
  exists j, str_find s sub start = Z.of_nat j /\ occ sub s j = true.
Proof.
  intros Hne. unfold str_find.
  destruct (Z.ltb_spec (len s) start) as [|Hle]; [now left|].
  cbv zeta.
  assert (Hr : 0 <= norm_index (len s) start <= len s).
  { unfold norm_index, len in *. destruct (Z.ltb_spec start 0); lia. }
  set (a := Z.to_nat (norm_index (len s) start)).
  replace (norm_index (len s) start) with (Z.of_nat a) by (unfold a; lia).
  rewrite <- str_find_nat by (unfold a, len in *; lia).
  destruct (str_find_cases s sub a Hne) as [[E _] | (j & E & _ & Ho & _)].
  - now left.
  - right. now exists j.
Qed.

Lemma str_in_true_find sub s :
  sub <> [] -> str_in sub s = true ->
  exists j, str_find s sub 0 = Z.of_nat j /\ occ sub s j = true /\
            forall j', (j' < j)%nat -> occ sub s j' = false.
Proof.
  unfold str_in. intros Hne H.
  destruct (str_find_cases s sub 0 Hne) as [[E _] | (j & E & _ & Ho & Hn)];
    change (Z.of_nat 0) with 0 in E.
  - rewrite E in H. discriminate.
  - exists j. repeat split; try assumption. intros j' Hj'. apply Hn. lia.
Qed.

Lemma str_in_false_find sub s :
  str_in sub s = false -> str_find s sub 0 = -1.
Proof.
  unfold str_in. intros H. apply negb_false_iff in H.
  now apply Z.eqb_eq.
Qed.

(** The first occurrence in the whole string is also the first one
    from any index up to it. *)
Lemma str_find_from_earlier s sub a j :
  sub <> [] -> str_find s sub 0 = Z.of_nat j -> (a <= j)%nat ->
  str_find s sub (Z.of_nat a) = Z.of_nat j.
Proof.
  intros Hne E Ha.
  destruct (str_find_cases s sub 0 Hne) as [[E' _] | (j0 & E' & _ & Ho & Hn)];
    change (Z.of_nat 0) with 0 in E'; rewrite E in E'; [lia|].
  apply Nat2Z.inj in E'. subst j0.
  apply str_find_hit; try assumption. intros j' Hj'. apply Hn. lia.
Qed.

End FindFacts.

Section Dictionaries.

Implicit Types (d : dict) (k v : text).

Lemma dict_get_set_same d k v : dict_get (dict_set d k v) k = Some v.
Proof.
  induction d as [|[k' v'] d IH]; simpl.
  - now rewrite text_eqb_refl.
  - destruct (text_eqb k' k) eqn:E; simpl; rewrite E; auto.
Qed.

Lemma dict_get_set_other d k v k' :
  k <> k' -> dict_get (dict_set d k v) k' = dict_get d k'.
Proof.
  intros Hne. induction d as [|[k0 v0] d IH]; simpl.
  - apply text_eqb_neq in Hne. now rewrite Hne.
  - destruct (text_eqb k0 k) eqn:E; simpl.
    + apply text_eqb_eq in E. subst k0.
      apply text_eqb_neq in Hne. now rewrite Hne.
    + now rewrite IH.
Qed.

Lemma in_keys_dict_set d k v x :
  In x (keys (dict_set d k v)) <-> x = k \/ In x (keys d).
Proof.
  induction d as [|[k0 v0] d IH]; simpl.
  - intuition.
  - destruct (text_eqb k0 k) eqn:E; simpl.
    + apply text_eqb_eq in E. subst k0. intuition.
    + unfold keys in IH. rewrite IH. intuition.
Qed.

Lemma dict_set_nodup d k v :
  NoDup (keys d) -> NoDup (keys (dict_set d k v)).
Proof.
  induction d as [|[k0 v0] d IH]; simpl; intros Hnd.
  - constructor; [intros [] | constructor].
  - inversion Hnd as [|? ? Hnotin Hnd']; subst.
    destruct (text_eqb k0 k) eqn:E; simpl; [now constructor|].
    constructor; [|now apply IH].
    intros Hin. apply (in_keys_dict_set d k v k0) in Hin.
    destruct Hin as [->|Hin]; [|contradiction].
    rewrite text_eqb_refl in E. discriminate.
Qed.

Lemma entries_for_absent d k : ~ In k (keys d) -> entries_for d k = 0%nat.
Proof.
  unfold entries_for. induction d as [|[k0 v0] d IH]; simpl; intros Hn;
    [reflexivity|].
  destruct (text_eqb k0 k) eqn:E.
  - apply text_eqb_eq in E. subst. exfalso. apply Hn. now left.
  - apply IH. intros Hin. apply Hn. now right.
Qed.

Lemma entries_for_present d k v :
  NoDup (keys d) -> dict_get d k = Some v -> entries_for d k = 1%nat.
Proof.
  unfold entries_for.
  induction d as [|[k0 v0] d IH]; simpl; intros Hnd Hget; [discriminate|].
  inversion Hnd as [|? ? Hnotin Hnd']; subst.
  destruct (text_eqb k0 k) eqn:E; simpl.
  - apply text_eqb_eq in E. subst k0. f_equal.
    now apply entries_for_absent.
  - now apply IH.
Qed.

End Dictionaries.

Section ParseLoop.

Implicit Types (data : dict) (line : text) (lines : list text).

Lemma parse_line_anchor data line :
  str_in anchor_open line = true ->
  parse_line data line = dict_set data (line_cik line) (line_company line).
Proof. unfold parse_line. now intros ->. Qed.

Lemma parse_line_skip data line :
  str_in anchor_open line = false -> parse_line data line = data.
Proof. unfold parse_line. now intros ->. Qed.

Lemma parse_line_nodup data line :
  NoDup (keys data) -> NoDup (keys (parse_line data line)).
Proof.
  unfold parse_line. destruct (str_in anchor_open line); [|trivial].
  apply dict_set_nodup.
Qed.

Lemma parse_lines_nodup lines : forall data,
  NoDup (keys data) -> NoDup (keys (fold_left parse_line lines data)).
Proof.
  induction lines as [|l lines IH]; intros data H; simpl; [assumption|].
  apply IH. now apply parse_line_nodup.
Qed.

(** Lines that do not write under [k] leave its entry alone. *)
Lemma parse_lines_keep lines k : forall data,
  forallb (fun l => negb (str_in anchor_open l && text_eqb (line_cik l) k))
    lines = true ->
  dict_get (fold_left parse_line lines data) k = dict_get data k.
Proof.
  induction lines as [|l lines IH]; intros data H; simpl; [reflexivity|].
  simpl in H. apply andb_true_iff in H as [Hl H].
  rewrite IH by assumption. unfold parse_line.
  destruct (str_in anchor_open l); [|reflexivity].
  simpl in Hl. apply negb_true_iff, text_eqb_neq in Hl.
  now apply dict_get_set_other.
Qed.

Lemma anchor_open_ne : anchor_open <> [].
Proof. discriminate. Qed.

Lemma quote_gt_ne : quote_gt <> [].
Proof. discriminate. Qed.

Lemma anchor_close_ne : anchor_close <> [].
Proof. discriminate. Qed.

(** A line that holds the anchor open has at least its nine
    characters. *)
Lemma anchor_line_length line :
  str_in anchor_open line = true -> (9 <= length line)%nat.
Proof.
  intros H.
  destruct (str_in_true_find _ _ anchor_open_ne H) as (j & _ & Ho & _).
  pose proof (occ_bound _ _ _ anchor_open_ne Ho) as Hb.
  change (length anchor_open) with 9%nat in Hb. lia.
Qed.

Lemma start_link_range line :
  1 <= start_link line <= len line \/ (line = [] /\ start_link line = 1).
Proof.
  unfold start_link.
  destruct (str_find_result line quote_gt 0 quote_gt_ne)
    as [-> | (j & -> & Ho)].
  - destruct line; [now right | left]. unfold len. simpl length. lia.
  - left. pose proof (occ_bound _ _ _ quote_gt_ne Ho) as Hb.
    change (length quote_gt) with 2%nat in Hb. unfold len. lia.
Qed.

(** The fields of a line with one anchor, when neither closing
    sequence appears earlier in the line. *)
Lemma anchor_line_fields before url ident after :
  str_in quote_gt (before ++ anchor_open ++ url) = false ->
  str_in anchor_close
    (before ++ anchor_open ++ url ++ quote_gt ++ ident) = false ->
  let line := anchor_line before url ident after in
  str_in anchor_open line = true /\
  start_link line = len (before ++ anchor_open ++ url ++ quote_gt) /\
  end_link line = len (before ++ anchor_open ++ url ++ quote_gt ++ ident) /\
  line_cik line = str_strip ident /\
  line_company line = str_strip after.
Proof.
  intros Hq Hc line.
  assert (E1 : line = [] ++ (before ++ anchor_open ++ url) ++ quote_gt
                      ++ ident ++ anchor_close ++ after).
  { unfold line, anchor_line. now rewrite <- !app_assoc. }
  assert (E2 : line = [] ++ (before ++ anchor_open ++ url ++ quote_gt ++ ident)
                      ++ anchor_close ++ after).
  { unfold line, anchor_line. now rewrite <- !app_assoc. }
  assert (Hs : start_link line =
               len (before ++ anchor_open ++ url ++ quote_gt)).
  { unfold start_link. rewrite E1.
    rewrite (str_find_after_gap 34%N (lit ">")
               ltac:(simpl; intuition discriminate) [] _ _ Hq).
    unfold len. rewrite !length_app.
    change (length quote_gt) with 2%nat.
    change (length (@nil char)) with 0%nat. lia. }
  assert (He : end_link line =
               len (before ++ anchor_open ++ url ++ quote_gt ++ ident)).
  { unfold end_link. rewrite E2.
    rewrite (str_find_after_gap 60%N (lit "/a>")
               ltac:(simpl; intuition discriminate) [] _ _ Hc).
    reflexivity. }
  split; [|split; [exact Hs | split; [exact He | split]]].
  - apply (str_in_true_occ _ _ (length before) anchor_open_ne).
    apply occ_here.
  - unfold line_cik. rewrite Hs, He. f_equal.
    assert (E3 : line = (before ++ anchor_open ++ url ++ quote_gt) ++ ident
                        ++ anchor_close ++ after).
    { unfold line, anchor_line. now rewrite <- !app_assoc. }
    rewrite E3 at 1.
    replace (len (before ++ anchor_open ++ url ++ quote_gt ++ ident))
      with (len (before ++ anchor_open ++ url ++ quote_gt) + len ident).
    + apply slice_app_mid.
    + unfold len. rewrite <- Nat2Z.inj_add, <- length_app.
      now rewrite <- !app_assoc.
  - unfold line_company. rewrite He. f_equal.
    assert (E4 : line = (before ++ anchor_open ++ url ++ quote_gt ++ ident
                         ++ anchor_close) ++ after).
    { unfold line, anchor_line. now rewrite <- !app_assoc. }
    rewrite E4 at 1.
    replace (len (before ++ anchor_open ++ url ++ quote_gt ++ ident) + 4)
      with (len (before ++ anchor_open ++ url ++ quote_gt ++ ident
                 ++ anchor_close)).
    + apply slice_from_app.
    + unfold len. rewrite !length_app.
      change (length anchor_close) with 4%nat. lia.
Qed.

End ParseLoop.

(** * The block extractor: results *)

Lemma extract_run_document pairs tail :
  forallb well_formed_pair pairs = true ->
  str_in start_tag tail = false ->
  extract_run (document pairs tail) =
  Some (map (fun p => str_strip (snd p)) pairs).
Proof.
  intros Hwf Htail.
  apply (extract_run_from_loop (S (length pairs))).
  exact (extract_loop_document pairs [] tail [] (S (length pairs))
           Hwf Htail (Nat.lt_succ_diag_r _)).
Qed.

(** C1.  A text made of N start/end marker pairs in sequence, where no
    start marker lies in the gap before a pair (nor after the last one)
    and no end marker inside a block, gives exactly N elements: the
    k-th is the text strictly between the k-th pair of markers, with
    the white space at both ends removed, in the order of the text. *)
Theorem extract_well_formed_pairs pairs tail :
  forallb well_formed_pair pairs = true ->
  str_in start_tag tail = false ->
  extract_run (document pairs tail) =
    Some (map (fun p => str_strip (snd p)) pairs) /\
  extract_pre_sections (document pairs tail) =
    map (fun p => str_strip (snd p)) pairs /\
  length (extract_pre_sections (document pairs tail)) = length pairs.
Proof.
  intros Hwf Htail.
  pose proof (extract_run_document pairs tail Hwf Htail) as Hrun.
  assert (Hres : extract_pre_sections (document pairs tail) =
                 map (fun p => str_strip (snd p)) pairs).
  { unfold extract_pre_sections. now rewrite Hrun. }
  split; [exact Hrun | split; [exact Hres|]].
  rewrite Hres. apply length_map.
Qed.

Lemma extract_well_formed_pairs_witness :
  extract_run (lit "x<pre> a </pre>y<pre>b</pre>z") =
    Some [lit "a"; lit "b"] /\
  length (extract_pre_sections (lit "x<pre> a </pre>y<pre>b</pre>z")) = 2%nat.
Proof.
  pose proof (extract_well_formed_pairs
                [(lit "x", lit " a "); (lit "y", lit "b")] (lit "z")
                eq_refl eq_refl) as (Hrun & _ & Hlen).
  split; [exact Hrun | exact Hlen].
Defined.

(** C5.  When some start marker has no end marker after it, the run
    ends normally with exactly the blocks of the text before that
    marker; in particular after N well-formed pairs it returns their N
    blocks.  A text without any start marker gives the empty list. *)
Theorem extract_unmatched_start :
  (forall t1 t2,
     str_in end_tag t2 = false ->
     exists blocks,
       extract_run t1 = Some blocks /\
       extract_run (t1 ++ start_tag ++ t2) = Some blocks) /\
  (forall pairs gap t2,
     forallb well_formed_pair pairs = true ->
     str_in start_tag gap = false ->
     str_in end_tag t2 = false ->
     extract_run (document pairs gap ++ start_tag ++ t2) =
     Some (map (fun p => str_strip (snd p)) pairs)) /\
  (forall html,
     str_in start_tag html = false -> extract_run html = Some []).
Proof.
  split; [|split].
  - intros t1 t2 Hno. destruct (extract_run_total t1) as [blocks Hb].
    exists blocks. split; [assumption|].
    now rewrite unmatched_run.
  - intros pairs gap t2 Hwf Hgap Hno.
    rewrite unmatched_run by assumption.
    now apply extract_run_document.
  - intros html Hno.
    exact (extract_run_document [] html eq_refl Hno).
Qed.

Lemma extract_unmatched_start_witness :
  extract_run (lit "<pre>a</pre>x<pre>b") = Some [lit "a"] /\
  extract_run (lit "<pre> a </pre>x<pre>b <pre>") = Some [lit "a"] /\
  extract_run (lit "no markers") = Some [].
Proof.
  destruct extract_unmatched_start as (H1 & H2 & H3).
  split; [|split].
  - destruct (H1 (lit "<pre>a</pre>x") (lit "b") eq_refl)
      as (blocks & Hb & Hw).
    change (lit "<pre>a</pre>x" ++ start_tag ++ lit "b")
      with (lit "<pre>a</pre>x<pre>b") in Hw.
    rewrite Hw, <- Hb. reflexivity.
  - exact (H2 [([], lit " a ")] (lit "x") (lit "b <pre>")
             eq_refl eq_refl eq_refl).
  - exact (H3 (lit "no markers") eq_refl).
Defined.

(** C9.  The scan always ends: a run with one turn allowed per
    character of the text (and one more) returns, and more turns change
    nothing, because in every turn the end marker found lies strictly
    after the current start marker and the next start marker found lies
    strictly after that end marker. *)
Theorem extract_pre_sections_terminates html :
  (exists pre_sections, extract_run html = Some pre_sections) /\
  (forall more,
     extract_loop (S (length html) + more) html
       (str_find html start_tag 0) [] = extract_run html) /\
  (forall from start end_ next,
     start = str_find html start_tag from -> start <> -1 ->
     end_ = str_find html end_tag start -> end_ <> -1 ->
     next = str_find html start_tag end_ ->
     start < end_ /\ (next <> -1 -> end_ < next)).
Proof.
  split; [apply extract_run_total | split].
  - intros more. destruct (extract_run_total html) as [r Hr]. rewrite Hr.
    apply (extract_loop_mono (S (length html))); [lia | exact Hr].
  - intros from start end_ next Hs Hs1 He He1 Hn.
    destruct (str_find_result html start_tag from start_tag_ne)
      as [E | (a & E & Hoa)]; rewrite E in Hs; [congruence|]. subst start.
    destruct (str_find_cases html end_tag a end_tag_ne)
      as [[E' _] | (e & E' & Hae & Hoe & _)]; rewrite E' in He;
      [congruence|]. subst end_.
    pose proof (start_then_end _ _ _ Hoa Hoe Hae).
    split; [lia|]. intros Hn1.
    destruct (str_find_cases html start_tag e start_tag_ne)
      as [[E2 _] | (n & E2 & Hen & Hon & _)]; rewrite E2 in Hn;
      [congruence|]. subst next.
    pose proof (end_then_start _ _ _ Hoe Hon Hen). lia.
Qed.

Lemma extract_pre_sections_terminates_witness :
  (exists pre_sections,
     extract_run (lit "<pre>a</pre><pre>b</pre>") = Some pre_sections) /\
  (0 < 6 /\ 6 < 12).
Proof.
  destruct (extract_pre_sections_terminates (lit "<pre>a</pre><pre>b</pre>"))
    as (Hrun & _ & Hstep).
  split; [exact Hrun|].
  destruct (Hstep 0 0 6 12 eq_refl ltac:(discriminate) eq_refl
              ltac:(discriminate) eq_refl) as [H1 H2].
  split; [exact H1 | apply H2; discriminate].
Defined.

(** * The record parser: results *)

(** Where the source and section 4.2 agree on the identifier.  On a
    line that holds the anchor open, when the first [quote_gt] of the
    whole line lies after the anchor open and the first [anchor_close]
    of the whole line lies after the identifier start, the identifier
    is the text from two characters after that [quote_gt] up to that
    [anchor_close], with the white space at both ends removed. *)
Theorem record_identifier_first_closers line q e :
  str_in anchor_open line = true ->
  str_find line quote_gt 0 = q ->
  str_find line anchor_open 0 + len anchor_open <= q ->
  str_find line anchor_close 0 = e ->
  q + 2 <= e ->
  spec_identifier line = slice line (q + 2) e /\
  line_cik line = str_strip (spec_identifier line) /\
  forall data,
    parse_line data line =
    dict_set data (str_strip (spec_identifier line)) (line_company line).
Proof.
  intros Hin Hq Haq He Hqe.
  destruct (str_in_true_find _ _ anchor_open_ne Hin) as (a & Ea & _).
  rewrite Ea in Haq. change (len anchor_open) with 9 in Haq.
  assert (Hspec : spec_identifier line = slice line (q + 2) e).
  { destruct (str_find_result line quote_gt 0 quote_gt_ne)
      as [E | (q' & Eq & _)]; [lia|].
    destruct (str_find_result line anchor_close 0 anchor_close_ne)
      as [E | (e' & Ee & _)]; [lia|].
    unfold spec_identifier. rewrite Ea. change (len anchor_open) with 9.
    replace (Z.of_nat a + 9) with (Z.of_nat (a + 9)) by lia.
    rewrite (str_find_from_earlier line quote_gt (a + 9) q' quote_gt_ne Eq)
      by lia.
    replace (Z.of_nat q' + 2) with (Z.of_nat (q' + 2)) by lia.
    rewrite (str_find_from_earlier line anchor_close (q' + 2) e'
               anchor_close_ne Ee) by lia.
    f_equal; lia. }
  assert (Hcik : line_cik line = str_strip (spec_identifier line)).
  { rewrite Hspec. unfold line_cik, start_link, end_link.
    now rewrite Hq, He. }
  split; [exact Hspec | split; [exact Hcik|]].
  intros data. rewrite parse_line_anchor by assumption. now rewrite Hcik.
Qed.

Lemma record_identifier_first_closers_witness :
  let line :=
    anchor_open ++ lit "x" ++ quote_gt ++ lit " 123 </a>  Example Co" in
  spec_identifier line = lit " 123 " /\ line_cik line = lit "123".
Proof.
  intros line.
  destruct (record_identifier_first_closers line 10 17 eq_refl eq_refl
              ltac:(apply Z.leb_le; reflexivity) eq_refl
              ltac:(apply Z.leb_le; reflexivity)) as (Hspec & Hcik & _).
  split; [rewrite Hspec | rewrite Hcik, Hspec]; reflexivity.
Defined.

(** C2.  The identifier is to be the text within the anchor, from two
    characters after the first [quote_gt] that follows the anchor open
    up to the first [anchor_close] after it, and a [quote_gt] earlier in
    the line is not to move its start.  The source looks for [quote_gt]
    from the start of the line: on the line below, which has one before
    the anchor open, it takes everything from there on as the
    identifier, where the text within the anchor is 123. *)
Lemma record_identifier_earlier_quote_gt :
  let line :=
    quote_gt ++ lit "x " ++ anchor_open ++ lit "u" ++ quote_gt
    ++ lit "123</a> Co" in
  str_in anchor_open line = true /\
  str_in anchor_close line = true /\
  spec_identifier line = lit "123" /\
  line_cik line = lit "x " ++ anchor_open ++ lit "u" ++ quote_gt ++ lit "123" /\
  line_cik line <> spec_identifier line.
Proof.
  intros line. repeat split; try reflexivity. discriminate.
Qed.

(** C3, as amended.  A line with the anchor open and without the anchor
    close is processed all the same: [end_link] is [-1], the identifier
    is the slice from [start_link] up to, not including, the last
    character, with the white space at both ends removed; the label is
    the line from index 3 on, trimmed; and the entry is stored. *)
Theorem record_without_anchor_close line :
  str_in anchor_open line = true ->
  str_in anchor_close line = false ->
  end_link line = -1 /\
  line_cik line = str_strip (slice line (start_link line) (-1)) /\
  slice line (start_link line) (-1) =
    removelast (skipn (Z.to_nat (start_link line)) line) /\
  line_company line = str_strip (skipn 3 line) /\
  forall data,
    parse_line data line = dict_set data (line_cik line) (line_company line) /\
    dict_get (parse_line data line) (line_cik line) =
    Some (line_company line).
Proof.
  intros Hin Hno.
  pose proof (str_in_false_find _ _ Hno) as He.
  pose proof (anchor_line_length line Hin) as Hlen.
  split; [exact He | split; [|split; [|split]]].
  - unfold line_cik, end_link. now rewrite He.
  - destruct (start_link_range line) as [Hr | [-> _]]; [|simpl in Hlen; lia].
    rewrite <- (Z2Nat.id (start_link line)) at 1 by lia.
    apply slice_to_minus_one. unfold len in Hr. lia.
  - unfold line_company, end_link. rewrite He. f_equal.
    change (-1 + 4) with (Z.of_nat 3). apply slice_from_nat. lia.
  - intros data. rewrite parse_line_anchor by assumption.
    split; [reflexivity | apply dict_get_set_same].
Qed.

Lemma record_without_anchor_close_witness :
  let line := anchor_open ++ lit "u" ++ quote_gt ++ lit " 12 3" in
  end_link line = -1 /\
  line_cik line = lit "12" /\
  line_company line =
    lit "href=" ++ [dquote] ++ lit "u" ++ quote_gt ++ lit " 12 3" /\
  parse_line [] line = [(line_cik line, line_company line)].
Proof.
  intros line.
  destruct (record_without_anchor_close line eq_refl eq_refl)
    as (He & Hcik & _ & Hco & Hset).
  split; [exact He | split; [|split]].
  - rewrite Hcik. reflexivity.
  - rewrite Hco. reflexivity.
  - rewrite (proj1 (Hset [])). reflexivity.
Defined.

(** C3 as worded fails: the identifier is not the bare slice, the white
    space at its ends is removed. *)
Lemma record_without_anchor_close_trims :
  let line := anchor_open ++ lit "u" ++ quote_gt ++ lit " 12 3" in
  str_in anchor_open line = true /\
  str_in anchor_close line = false /\
  slice line (start_link line) (end_link line) = lit " 12 " /\
  line_cik line = lit "12" /\
  line_cik line <> slice line (start_link line) (end_link line).
Proof.
  intros line. repeat split; try reflexivity. discriminate.
Qed.

(** C10.  A line with the anchor open and without [quote_gt] is not
    skipped: the identifier start is 1, the identifier is the trimmed
    slice from index 1 up to the anchor close (or up to, not including,
    the last character when the anchor close is absent too), and the
    entry is stored. *)
Theorem record_without_quote_gt line :
  str_in anchor_open line = true ->
  str_in quote_gt line = false ->
  start_link line = 1 /\
  line_cik line = str_strip (slice line 1 (end_link line)) /\
  (forall e, end_link line = Z.of_nat e ->
     line_cik line = str_strip (firstn (e - 1) (skipn 1 line))) /\
  (end_link line = -1 ->
     line_cik line = str_strip (removelast (skipn 1 line))) /\
  forall data,
    parse_line data line = dict_set data (line_cik line) (line_company line) /\
    dict_get (parse_line data line) (line_cik line) =
    Some (line_company line).
Proof.
  intros Hin Hno.
  pose proof (anchor_line_length line Hin) as Hlen.
  assert (Hs : start_link line = 1).
  { unfold start_link. now rewrite (str_in_false_find _ _ Hno). }
  assert (Hcik : line_cik line = str_strip (slice line 1 (end_link line))).
  { unfold line_cik. now rewrite Hs. }
  split; [exact Hs | split; [exact Hcik | split; [|split]]].
  - intros e He. rewrite Hcik, He. f_equal.
    destruct (str_find_result line anchor_close 0 anchor_close_ne)
      as [E | (e' & E & Ho)]; unfold end_link in He; rewrite E in He; [lia|].
    apply Nat2Z.inj in He. subst e'.
    pose proof (occ_bound _ _ _ anchor_close_ne Ho).
    change 1 with (Z.of_nat 1). apply slice_nat; lia.
  - intros He. rewrite Hcik, He. f_equal.
    change 1 with (Z.of_nat 1). apply slice_to_minus_one. lia.
  - intros data. rewrite parse_line_anchor by assumption.
    split; [reflexivity | apply dict_get_set_same].
Qed.

Lemma record_without_quote_gt_witness :
  let line := anchor_open ++ lit "x>123</a> Co" in
  start_link line = 1 /\
  line_cik line = lit "a href=" ++ [dquote] ++ lit "x>123" /\
  parse_line [] line = [(line_cik line, lit "Co")].
Proof.
  intros line.
  destruct (record_without_quote_gt line eq_refl eq_refl)
    as (Hs & _ & Hcik & _ & Hset).
  split; [exact Hs | split].
  - rewrite (Hcik 14%nat eq_refl). reflexivity.
  - rewrite (proj1 (Hset [])). reflexivity.
Defined.

(** C4.  When a line of the block writes an identifier and no later
    line writes the same one, the mapping holds exactly one entry for
    that identifier, whatever earlier lines wrote under it, and its
    label is the one of that last line. *)
Theorem parse_table_last_wins pre_table earlier line later :
  str_split nl pre_table = earlier ++ line :: later ->
  str_in anchor_open line = true ->
  forallb (fun l => negb (str_in anchor_open l
                          && text_eqb (line_cik l) (line_cik line)))
    later = true ->
  dict_get (parse_table pre_table) (line_cik line) = Some (line_company line) /\
  entries_for (parse_table pre_table) (line_cik line) = 1%nat /\
  NoDup (keys (parse_table pre_table)).
Proof.
  intros Hsplit Hin Hlater.
  assert (Hnd : NoDup (keys (parse_table pre_table))).
  { apply parse_lines_nodup. constructor. }
  assert (Hget : dict_get (parse_table pre_table) (line_cik line) =
                 Some (line_company line)).
  { unfold parse_table. rewrite Hsplit, fold_left_app. simpl fold_left.
    rewrite parse_lines_keep by assumption.
    rewrite parse_line_anchor by assumption. apply dict_get_set_same. }
  split; [exact Hget | split; [|exact Hnd]].
  now apply (entries_for_present _ _ (line_company line)).
Qed.

Lemma parse_table_last_wins_witness :
  let first := anchor_open ++ lit "x" ++ quote_gt ++ lit "123</a>  Old Co" in
  let second := anchor_open ++ lit "y" ++ quote_gt ++ lit "123</a>  New Co" in
  let third := anchor_open ++ lit "z" ++ quote_gt ++ lit "456</a>  Other" in
  let pre_table := first ++ [nl] ++ second ++ [nl] ++ third in
  parse_table pre_table =
    [(lit "123", lit "New Co"); (lit "456", lit "Other")] /\
  dict_get (parse_table pre_table) (lit "123") = Some (lit "New Co") /\
  entries_for (parse_table pre_table) (lit "123") = 1%nat.
Proof.
  intros first second third pre_table.
  destruct (parse_table_last_wins pre_table [first] second [third]
              eq_refl eq_refl eq_refl) as (Hget & Hone & _).
  split; [reflexivity | split; [exact Hget | exact Hone]].
Defined.

(** * The query driver: results *)

Section DriverFacts.

Variable accepts : text -> bool.
Variable write_error : text -> text.
Variable fetch : text -> exn + text.

Implicit Types (entry stdout line s : text) (lines : list text).

(** What a run of [print] calls adds does not depend on what was
    written before. *)
Lemma print_each_prefix lines : forall stdout,
  print_each accepts write_error lines stdout =
  (stdout ++ fst (print_each accepts write_error lines []),
   snd (print_each accepts write_error lines [])).
Proof.
  induction lines as [|s lines IH]; intros stdout; simpl.
  - now rewrite app_nil_r.
  - unfold print_to. destruct (accepts s); simpl.
    + rewrite (IH (stdout ++ print s)), (IH (print s)). simpl.
      now rewrite app_assoc.
    + now rewrite app_nil_r.
Qed.

(** Either every call goes through, or the calls before the first
    refused text do. *)
Lemma print_each_cases lines :
  print_each accepts write_error lines [] = (concat (map print lines), None)
  \/
  exists before s after,
    lines = before ++ s :: after /\ accepts s = false /\
    print_each accepts write_error lines [] =
    (concat (map print before), Some (OtherException (write_error s))).
Proof.
  induction lines as [|s lines IH]; simpl; [now left|].
  unfold print_to. destruct (accepts s) eqn:Hs; simpl.
  - rewrite print_each_prefix.
    destruct IH as [-> | (before & s' & after & -> & Hs' & ->)]; simpl.
    + now left.
    + right. exists (s :: before), s', after. repeat split. exact Hs'.
  - right. exists [], s, lines. repeat split. exact Hs.
Qed.

(** The calls of the [try] body write what [process_document] gives. *)
Lemma body_prints_output entry html_content :
  concat (map print (body_prints entry html_content)) =
  fst (process_document entry html_content).
Proof.
  unfold body_prints, process_document.
  destruct (1 <? length (extract_pre_sections html_content))%nat;
    cbn [fst map concat].
  - unfold print_results. now rewrite map_map.
  - unfold print_missing. apply app_nil_r.
Qed.






End DriverFacts.

(** On a standard output that takes everything, the driver is [main]. *)
Lemma main_on_ideal write_error fetch entries :
  main_on (fun _ => true) write_error fetch entries = main fetch entries.
Proof.
  unfold main_on, main. generalize (@nil char) as stdout.
  induction entries as [|entry entries IH]; intros stdout; [reflexivity|].
  simpl. unfold query_on, try_body, query, handle.
  destruct (fetch entry) as [e|html].
  - destruct (report entry e) as [line|]; simpl; [apply IH | reflexivity].
  - rewrite print_each_prefix.
    destruct (print_each_cases (fun _ => true) write_error
                (body_prints entry html))
      as [E | (before & s & after & _ & Hs & _)]; [|discriminate].
    rewrite E. simpl. rewrite body_prints_output. apply IH.
Qed.


(** C6.  Once the response text is there: with fewer than two blocks
    the turn prints the one line about the missing table and builds no
    mapping; with two or more it parses the block at index 1 and prints
    the header and one line for each pair of the mapping. *)
Theorem driver_missing_table_or_results fetch entry html_content :
  fetch entry = inr html_content ->
  let pre_sections := extract_pre_sections html_content in
  ((length pre_sections < 2)%nat ->
     process_document entry html_content = (print_missing entry, None) /\
     query fetch entry =
     inr (print (lit "Error: Missing expected table for '" ++ entry
                 ++ lit "'."))) /\
  ((2 <= length pre_sections)%nat ->
     exists pre_table,
       nth_error pre_sections 1 = Some pre_table /\
       process_document entry html_content =
         (print_results entry (parse_table pre_table),
          Some (parse_table pre_table)) /\
       query fetch entry =
         inr (print ([nl] ++ lit "Results for '" ++ entry ++ lit "':")
              ++ concat (map print_record (parse_table pre_table)))).
Proof.
  intros Hfetch pre_sections. unfold query. rewrite Hfetch.
  unfold process_document. fold pre_sections. split.
  - intros Hlt. destruct (Nat.ltb_spec 1 (length pre_sections)); [lia|].
    split; reflexivity.
  - intros Hge. destruct (Nat.ltb_spec 1 (length pre_sections)); [|lia].
    destruct pre_sections as [|header [|pre_table more]];
      try (simpl in Hge; lia).
    exists pre_table. repeat split.
Qed.

Lemma driver_missing_table_or_results_witness :
  let fetch := fun entry : text =>
    if text_eqb entry (lit "ABC")
    then @inr exn text (lit "<pre>header</pre> nothing else")
    else inr (lit "<pre>header</pre><pre>" ++ anchor_open ++ lit "x"
              ++ quote_gt ++ lit "1234567</a>  Example Co</pre>") in
  query fetch (lit "ABC") =
    inr (lit "Error: Missing expected table for 'ABC'." ++ [nl]) /\
  query fetch (lit "Pulse") =
    inr ([nl] ++ lit "Results for 'Pulse':" ++ [nl]
         ++ lit "1234567   : Example Co" ++ [nl]).
Proof.
  intros fetch. split.
  - destruct (driver_missing_table_or_results fetch (lit "ABC") _ eq_refl)
      as [Hmiss _].
    destruct (Hmiss ltac:(apply Nat.ltb_lt; reflexivity)) as [_ Hq].
    rewrite Hq. reflexivity.
  - destruct (driver_missing_table_or_results fetch (lit "Pulse") _ eq_refl)
      as [_ Hres].
    destruct (Hres ltac:(apply Nat.leb_le; reflexivity))
      as (pre_table & Hnth & _ & Hq).
    injection Hnth as <-. rewrite Hq. reflexivity.
Defined.

(** C7, as amended.  Each record is printed as the identifier, left
    aligned and filled with spaces on its right up to a width of at
    least ten characters (a longer identifier is printed whole), then a
    colon, a space and the label. *)
Theorem print_record_format cik company :
  print_record (cik, company) =
    cik ++ repeat space (10 - length cik) ++ lit ": " ++ company ++ [nl] /\
  length (format_left cik 10) = Nat.max 10 (length cik) /\
  firstn (length cik) (format_left cik 10) = cik /\
  forall entry data,
    print_results entry data =
    print ([nl] ++ lit "Results for '" ++ entry ++ lit "':")
    ++ concat (map print_record data).
Proof.
  split; [|split; [|split]].
  - unfold print_record, print, format_left. simpl fst. simpl snd.
    now rewrite <- !app_assoc.
  - unfold format_left. rewrite length_app, repeat_length. lia.
  - unfold format_left. rewrite firstn_app, firstn_all, Nat.sub_diag.
    simpl. apply app_nil_r.
  - reflexivity.
Qed.

(** C7 as worded fails: the filling is on the right of the identifier,
    not on its left, and an identifier longer than ten characters is not
    cut. *)
Lemma print_record_not_left_padded :
  print_record (lit "123", lit "Co") = lit "123       : Co" ++ [nl] /\
  print_record (lit "123", lit "Co") <>
    print (spec_field_left_padded (lit "123") ++ lit ": " ++ lit "Co") /\
  print_record (lit "12345678901", lit "Co") =
    lit "12345678901: Co" ++ [nl] /\
  print_record (lit "12345678901", lit "Co") <>
    print (spec_field_left_padded (lit "12345678901") ++ lit ": " ++ lit "Co").
Proof.
  repeat split; try reflexivity; discriminate.
Qed.




Example main_goes_on_after_errors :
  let fetch := fun entry : text =>
    if text_eqb entry (lit "Pulse")
    then inl (HTTPError 404 (lit "Not Found"))
    else if text_eqb entry (lit "ABC")
    then inl (URLError (lit "timed out"))
    else inr (lit "<pre>header</pre>") in
  main fetch [lit "Pulse"; lit "ABC"; lit "Apple"] =
    (lit "HTTP Error for 'Pulse': 404 Not Found" ++ [nl]
     ++ lit "URL Error for 'ABC': timed out" ++ [nl]
     ++ lit "Error: Missing expected table for 'Apple'." ++ [nl], None).
Proof. reflexivity. Qed.


(** * Further properties *)

(** ** Trimming and substrings *)

Section Trimming.

Implicit Types (s x u v : text) (c : char).

Lemma lstrip_suffix s : exists u, s = u ++ lstrip s.
Proof.
  induction s as [|c s [u IH]]; [now exists []|]. simpl.
  destruct (isspace c); [|now exists []].
  exists (c :: u). simpl. now rewrite <- IH.
Qed.

Lemma lstrip_head s :
  match lstrip s with [] => True | c :: _ => isspace c = false end.
Proof.
  induction s as [|c s IH]; simpl; [exact I|].
  destruct (isspace c) eqn:E; [exact IH | exact E].
Qed.

Lemma lstrip_app_keep x c y :
  isspace c = false -> lstrip (x ++ c :: y) = lstrip x ++ c :: y.
Proof.
  intros Hc. induction x as [|d x IH]; simpl; [now rewrite Hc|].
  destruct (isspace d); [exact IH | reflexivity].
Qed.

Lemma substring_refl s : substring_of s s.
Proof. exists [], []. simpl. now rewrite app_nil_r. Qed.

Lemma substring_trans x s t :
  substring_of x s -> substring_of s t -> substring_of x t.
Proof.
  intros (u & v & ->) (u' & v' & ->).
  exists (u' ++ u), (v ++ v'). now rewrite <- !app_assoc.
Qed.

Lemma substring_in c x s : substring_of x s -> In c x -> In c s.
Proof.
  intros (u & v & ->) H. apply in_or_app. right.
  apply in_or_app. now left.
Qed.

Lemma substring_occ sub u x v j :
  sub <> [] -> occ sub x j = true ->
  occ sub (u ++ x ++ v) (length u + j) = true.
Proof.
  intros Hne Ho. rewrite occ_app_r, occ_app_l; [assumption|].
  now apply occ_bound.
Qed.

Lemma substring_str_in sub x s :
  sub <> [] -> substring_of x s -> str_in sub s = false ->
  str_in sub x = false.
Proof.
  intros Hne (u & v & ->) Hno.
  destruct (str_in sub x) eqn:E; [|reflexivity].
  destruct (str_in_true_find _ _ Hne E) as (j & _ & Ho & _).
  pose proof (substring_occ sub u x v j Hne Ho) as Ho'.
  rewrite (str_in_false_occ _ _ _ Hne Hno) in Ho'. discriminate.
Qed.

Lemma lstrip_substring s : substring_of (lstrip s) s.
Proof.
  destruct (lstrip_suffix s) as [u E]. exists u, [].
  now rewrite app_nil_r.
Qed.

Lemma rstrip_substring s : substring_of (rstrip s) s.
Proof.
  unfold rstrip. destruct (lstrip_suffix (rev s)) as [u E].
  exists [], (rev u). simpl.
  rewrite <- rev_app_distr, <- E. symmetry. apply rev_involutive.
Qed.

Lemma str_strip_substring s : substring_of (str_strip s) s.
Proof.
  unfold str_strip.
  exact (substring_trans _ _ _ (rstrip_substring _) (lstrip_substring s)).
Qed.

Lemma str_strip_trimmed s : trimmed (str_strip s) = true.
Proof.
  unfold str_strip, rstrip, trimmed.
  pose proof (lstrip_head s) as Hh.
  destruct (lstrip s) as [|c t]; [reflexivity|].
  change (rev (c :: t)) with (rev t ++ [c]).
  rewrite lstrip_app_keep by assumption.
  rewrite rev_involutive, rev_app_distr.
  change (rev [c] ++ rev (lstrip (rev t)))
    with (c :: rev (lstrip (rev t))).
  cbv iota beta. rewrite Hh.
  pose proof (lstrip_head (rev t)) as Hl.
  destruct (lstrip (rev t)) as [|d w]; simpl; [now rewrite Hh|].
  now rewrite Hl.
Qed.

Lemma slice_substring s i j : substring_of (slice s i j) s.
Proof.
  unfold slice.
  set (a := Z.to_nat (norm_index (len s) i)).
  set (n := Z.to_nat (norm_index (len s) j - norm_index (len s) i)).
  exists (firstn a s), (skipn n (skipn a s)).
  now rewrite firstn_skipn, firstn_skipn.
Qed.

Lemma slice_from_substring s i : substring_of (slice_from s i) s.
Proof.
  unfold slice_from. set (a := Z.to_nat (norm_index (len s) i)).
  exists (firstn a s), []. now rewrite app_nil_r, firstn_skipn.
Qed.

End Trimming.

(** ** The scan loop as a relation *)

Section ScanRelation.

Implicit Types (html : text) (blocks acc : list text).

(** A result of [find] for the start marker is [-1] or a start
    marker. *)
Lemma start_position html from :
  str_find html start_tag from = -1 \/
  exists a, str_find html start_tag from = Z.of_nat a /\
            occ start_tag html a = true.
Proof. apply str_find_result, start_tag_ne. Qed.

Lemma extract_loop_scan html fuel : forall start acc r,
  (start = -1 \/
   exists a, start = Z.of_nat a /\ occ start_tag html a = true) ->
  extract_loop fuel html start acc = Some r ->
  exists blocks, r = acc ++ blocks /\ scan html start blocks.
Proof.
  induction fuel as [|fuel IH]; intros start acc r Hstart Hrun;
    [discriminate|].
  destruct Hstart as [-> | (a & -> & Ha)].
  - rewrite extract_loop_done in Hrun. injection Hrun as <-.
    exists []. rewrite app_nil_r. split; [reflexivity | constructor].
  - destruct (str_find_cases html end_tag a end_tag_ne)
      as [[He _] | (e & He & _)].
    + rewrite (extract_loop_break _ _ _ _ He) in Hrun.
      injection Hrun as <-. exists []. rewrite app_nil_r.
      split; [reflexivity | now constructor].
    + rewrite (extract_loop_step _ _ _ _ _ He) in Hrun.
      apply IH in Hrun; [|apply start_position].
      destruct Hrun as (blocks & -> & Hscan).
      eexists. rewrite <- app_assoc. split; [reflexivity|].
      now apply scan_step.
Qed.

Lemma scan_extract_loop html start blocks :
  scan html start blocks ->
  forall acc fuel, (length blocks < fuel)%nat ->
  extract_loop fuel html start acc = Some (acc ++ blocks).
Proof.
  induction 1 as [|a Ha He|a e blocks Ha He Hscan IH]; intros acc fuel Hf;
    (destruct fuel as [|fuel]; [simpl in Hf; lia|]).
  - now rewrite extract_loop_done, app_nil_r.
  - now rewrite (extract_loop_break _ _ _ _ He), app_nil_r.
  - rewrite (extract_loop_step _ _ _ _ _ He).
    rewrite IH by (simpl in Hf; lia). now rewrite <- app_assoc.
Qed.

(** The run returns exactly what the relation gives from the first
    start marker. *)
Lemma extract_run_scan html blocks :
  extract_run html = Some blocks <->
  scan html (str_find html start_tag 0) blocks.
Proof.
  split.
  - intros Hrun. unfold extract_run in Hrun.
    apply extract_loop_scan in Hrun; [|apply start_position].
    now destruct Hrun as (blocks' & -> & Hscan).
  - intros Hscan. apply (extract_run_from_loop (S (length blocks))).
    apply (scan_extract_loop _ _ _ Hscan []). lia.
Qed.

Lemma extract_pre_sections_scan html :
  scan html (str_find html start_tag 0) (extract_pre_sections html).
Proof. apply extract_run_scan, extract_pre_sections_run. Qed.

End ScanRelation.

Section FindPositions.

Implicit Types (s sub : text) (a e j : nat).

(** What a found index says. *)
Lemma str_find_found s sub a e :
  sub <> [] -> str_find s sub (Z.of_nat a) = Z.of_nat e ->
  (a <= e)%nat /\ occ sub s e = true /\
  forall j, (a <= j < e)%nat -> occ sub s j = false.
Proof.
  intros Hne E.
  destruct (str_find_cases s sub a Hne) as [[E' _] | (j0 & E' & H)];
    rewrite E in E'; [lia|].
  apply Nat2Z.inj in E'. now subst j0.
Qed.

Lemma shift_nat p a : shift p (Z.of_nat a) = Z.of_nat (p + a).
Proof. unfold shift. destruct (Z.eqb_spec (Z.of_nat a) (-1)); lia. Qed.

Lemma str_find_shift pre rest sub a :
  sub <> [] ->
  str_find (pre ++ rest) sub (Z.of_nat (length pre + a)) =
  shift (length pre) (str_find rest sub (Z.of_nat a)).
Proof.
  intros Hne.
  destruct (str_find_cases rest sub a Hne)
    as [[-> Hn] | (j0 & -> & Haj & Ho & Hn)].
  - apply str_find_miss; [assumption|]. intros j Hj.
    replace j with (length pre + (j - length pre))%nat by lia.
    rewrite occ_app_r. apply Hn. lia.
  - rewrite shift_nat. apply str_find_hit; [assumption | lia | |].
    + now rewrite occ_app_r.
    + intros j Hj.
      replace j with (length pre + (j - length pre))%nat by lia.
      rewrite occ_app_r. apply Hn. lia.
Qed.

Lemma slice_shift pre rest a e :
  (a <= length rest)%nat -> (e <= length rest)%nat ->
  slice (pre ++ rest) (Z.of_nat (length pre + a)) (Z.of_nat (length pre + e))
  = slice rest (Z.of_nat a) (Z.of_nat e).
Proof.
  intros Ha He. rewrite !slice_nat by (rewrite ?length_app; lia).
  rewrite skipn_app, skipn_all2 by lia.
  replace (length pre + a - length pre)%nat with a by lia.
  replace (length pre + e - (length pre + a))%nat with (e - a)%nat by lia.
  reflexivity.
Qed.

(** The text before the first occurrence from [a] on holds none. *)
Lemma slice_before_first s sub a k e :
  sub <> [] -> str_find s sub (Z.of_nat a) = Z.of_nat e ->
  (a <= k <= e)%nat ->
  str_in sub (slice s (Z.of_nat k) (Z.of_nat e)) = false.
Proof.
  intros Hne E Hk.
  destruct (str_find_found s sub a e Hne E) as (_ & Ho & Hn).
  pose proof (occ_bound _ _ _ Hne Ho) as Hb.
  rewrite slice_nat by lia.
  destruct (str_in sub (firstn (e - k) (skipn k s))) eqn:Hin; [|reflexivity].
  destruct (str_in_true_find _ _ Hne Hin) as (j & _ & Hoj & _).
  pose proof (occ_bound _ _ _ Hne Hoj) as Hbj.
  rewrite length_firstn, length_skipn in Hbj.
  pose proof (substring_occ sub (firstn k s) _
                (skipn (e - k) (skipn k s)) j Hne Hoj) as Hos.
  rewrite firstn_skipn, firstn_skipn, length_firstn in Hos.
  assert (0 < length sub)%nat by (destruct sub; [congruence | simpl; lia]).
  rewrite Hn in Hos by lia. discriminate.
Qed.

End FindPositions.

Section ScanFacts.

Implicit Types (html pre rest : text) (blocks : list text).

Lemma scan_shift pre rest start blocks :
  scan rest start blocks ->
  scan (pre ++ rest) (shift (length pre) start) blocks.
Proof.
  induction 1 as [|a Ha He|a e blocks Ha He Hscan IH].
  - constructor.
  - rewrite shift_nat. constructor.
    + now rewrite occ_app_r.
    + rewrite str_find_shift by apply end_tag_ne. now rewrite He.
  - destruct (str_find_found _ _ _ _ end_tag_ne He) as (Hae & Hoe & _).
    pose proof (occ_bound _ _ _ start_tag_ne Ha) as Hba.
    pose proof (occ_bound _ _ _ end_tag_ne Hoe) as Hbe.
    rewrite length_start_tag in Hba. rewrite length_end_tag in Hbe.
    rewrite shift_nat.
    rewrite <- (slice_shift pre rest (a + 5) e) by lia.
    rewrite Nat.add_assoc. apply scan_step.
    + now rewrite occ_app_r.
    + rewrite str_find_shift by apply end_tag_ne.
      now rewrite He, shift_nat.
    + rewrite str_find_shift by apply start_tag_ne. exact IH.
Qed.

(** What the blocks found by the scan have in common. *)
Lemma scan_blocks html start blocks :
  scan html start blocks ->
  Forall (fun b => substring_of b html /\ str_in end_tag b = false /\
                   trimmed b = true) blocks.
Proof.
  induction 1 as [|a Ha He|a e blocks Ha He Hscan IH];
    [constructor | constructor |].
  constructor; [|exact IH].
  destruct (str_find_found _ _ _ _ end_tag_ne He) as (Hae & Hoe & _).
  pose proof (start_then_end _ _ _ Ha Hoe Hae) as Hd.
  split; [|split].
  - exact (substring_trans _ _ _ (str_strip_substring _)
             (slice_substring _ _ _)).
  - apply (substring_str_in _ _ _ end_tag_ne (str_strip_substring _)).
    apply (slice_before_first html end_tag a (a + 5) e end_tag_ne He). lia.
  - apply str_strip_trimmed.
Qed.

(** Every turn that adds a block moves on by at least the two
    markers. *)
Lemma scan_bound html start blocks :
  scan html start blocks ->
  (start = -1 -> blocks = []) /\
  (forall a, start = Z.of_nat a ->
     (11 * length blocks <= length html - a)%nat).
Proof.
  induction 1 as [|a Ha He|a e blocks Ha He Hscan [IH1 IH2]].
  - split; [reflexivity | intros a Ha; lia].
  - split; [lia | intros a' _; simpl; lia].
  - split; [lia|]. intros a' Ea. apply Nat2Z.inj in Ea. subst a'.
    destruct (str_find_found _ _ _ _ end_tag_ne He) as (Hae & Hoe & _).
    pose proof (start_then_end _ _ _ Ha Hoe Hae) as Hd.
    pose proof (occ_bound _ _ _ end_tag_ne Hoe) as Hbe.
    rewrite length_end_tag in Hbe. simpl length.
    destruct (str_find_cases html start_tag e start_tag_ne)
      as [[En _] | (n & En & Hen & Hon & _)].
    + rewrite (IH1 En). simpl. lia.
    + specialize (IH2 n En).
      pose proof (end_then_start _ _ _ Hoe Hon Hen).
      pose proof (occ_bound _ _ _ start_tag_ne Hon) as Hbn.
      rewrite length_start_tag in Hbn. lia.
Qed.

(** The positions of the first pair of a text that begins with a gap
    and a pair. *)
Lemma first_pair_scan gap block rest :
  str_in start_tag gap = false ->
  str_in end_tag block = false ->
  let html := gap ++ start_tag ++ block ++ end_tag ++ rest in
  str_find html start_tag 0 = Z.of_nat (length gap) /\
  scan html (Z.of_nat (length gap))
    (str_strip block :: extract_pre_sections rest).
Proof.
  intros Hg Hb html.
  assert (Hs : str_find html start_tag 0 = Z.of_nat (length gap)).
  { exact (str_find_after_gap 60%N (lit "pre>") not_in_start_tail
             [] gap (block ++ end_tag ++ rest) Hg). }
  assert (Hoa : occ start_tag html (length gap) = true) by apply occ_here.
  assert (E1 : html = (gap ++ start_tag) ++ block ++ end_tag ++ rest).
  { unfold html. now rewrite <- !app_assoc. }
  assert (L1 : length (gap ++ start_tag) = (length gap + 5)%nat).
  { now rewrite length_app, length_start_tag. }
  assert (He : str_find html end_tag (Z.of_nat (length gap)) =
               Z.of_nat (length gap + 5 + length block)).
  { rewrite str_find_end_skips_start by assumption.
    rewrite <- L1, E1.
    now rewrite (str_find_after_gap 60%N (lit "/pre>") not_in_end_tail)
      by assumption. }
  assert (Hoe : occ end_tag html (length gap + 5 + length block) = true).
  { rewrite E1, app_assoc, <- L1, <- length_app. apply occ_here. }
  assert (Hslice : slice html (Z.of_nat (length gap + 5))
                     (Z.of_nat (length gap + 5 + length block)) = block).
  { rewrite E1, <- L1, Nat2Z.inj_add. apply slice_app_mid. }
  assert (E2 : html = (gap ++ start_tag ++ block ++ end_tag) ++ rest).
  { unfold html. now rewrite <- !app_assoc. }
  assert (L2 : length (gap ++ start_tag ++ block ++ end_tag) =
               (length gap + 5 + length block + 6)%nat).
  { rewrite !length_app, length_start_tag, length_end_tag. lia. }
  split; [exact Hs|].
  rewrite <- Hslice. apply scan_step; [assumption | assumption |].
  rewrite str_find_start_skips_end by assumption.
  rewrite <- L2, <- (Nat.add_0_r (length _)), E2.
  rewrite str_find_shift by apply start_tag_ne.
  apply scan_shift, extract_pre_sections_scan.
Qed.

End ScanFacts.

(** ** The block extractor *)

(** X1.  A text that begins with a gap without start marker, a start
    marker, a block without end marker and an end marker gives the
    trimmed block followed by whatever the rest of the text gives,
    whatever that rest is. *)
Theorem extract_first_pair gap block rest :
  str_in start_tag gap = false ->
  str_in end_tag block = false ->
  extract_run (gap ++ start_tag ++ block ++ end_tag ++ rest) =
    Some (str_strip block :: extract_pre_sections rest) /\
  extract_pre_sections (gap ++ start_tag ++ block ++ end_tag ++ rest) =
    str_strip block :: extract_pre_sections rest.
Proof.
  intros Hg Hb.
  destruct (first_pair_scan gap block rest Hg Hb) as [Hs Hscan].
  assert (Hrun : extract_run (gap ++ start_tag ++ block ++ end_tag ++ rest)
                 = Some (str_strip block :: extract_pre_sections rest)).
  { apply extract_run_scan. rewrite Hs. exact Hscan. }
  split; [exact Hrun|]. unfold extract_pre_sections at 1. now rewrite Hrun.
Qed.

Lemma extract_first_pair_witness :
  extract_pre_sections (lit "x<pre> a </pre>y<pre>b</pre><pre>c") =
  [lit "a"; lit "b"].
Proof.
  refine (eq_trans (proj2 (extract_first_pair (lit "x") (lit " a ")
                             (lit "y<pre>b</pre><pre>c") eq_refl eq_refl)) _).
  reflexivity.
Defined.

(** X2.  The result is empty exactly when the text has no start marker
    or no end marker after its first start marker; otherwise its first
    element is the trimmed text between the first start marker and the
    first end marker after it. *)
Theorem extract_first_block html :
  (extract_pre_sections html = [] <->
   str_in start_tag html = false \/
   str_find html end_tag (str_find html start_tag 0) = -1) /\
  (forall s e,
     str_find html start_tag 0 = s -> s <> -1 ->
     str_find html end_tag s = e -> e <> -1 ->
     hd_error (extract_pre_sections html) =
     Some (str_strip (slice html (s + 5) e))).
Proof.
  pose proof (extract_pre_sections_scan html) as Hscan.
  destruct (start_position html 0) as [E | (a & E & Ha)];
    rewrite E in *.
  - assert (Hnil : extract_pre_sections html = []).
    { inversion Hscan; [reflexivity | lia | lia]. }
    split.
    + split; [|intros _; exact Hnil]. intros _. left.
      unfold str_in. now rewrite E.
    + intros s e <- Hs. congruence.
  - assert (Hin : str_in start_tag html = true).
    { unfold str_in. rewrite E.
      destruct (Z.eqb_spec (Z.of_nat a) (-1)); [lia | reflexivity]. }
    inversion Hscan as [Eq | a' _ He Eq Hb | a' e' blocks _ He _ Eq Hb];
      [lia | |]; apply Nat2Z.inj in Eq; subst a'.
    + split.
      * split; [intros _; now right | reflexivity].
      * intros s e <- _ <- He'. congruence.
    + split.
      * split; [discriminate|].
        intros [Hno | Hno]; [congruence | rewrite He in Hno; lia].
      * intros s e <- _ <- _. rewrite He. simpl hd_error.
        now rewrite Nat2Z.inj_add.
Qed.

Lemma extract_first_block_witness :
  hd_error (extract_pre_sections (lit "a<pre> b </pre>c")) =
  Some (lit "b").
Proof.
  rewrite (proj2 (extract_first_block (lit "a<pre> b </pre>c")) 1 9
             eq_refl ltac:(discriminate) eq_refl ltac:(discriminate)).
  reflexivity.
Defined.

(** X3.  Every block returned is a run of consecutive characters of
    the text, and holds no end marker. *)
Theorem extract_blocks_substrings html :
  Forall (fun b => substring_of b html /\ str_in end_tag b = false)
    (extract_pre_sections html).
Proof.
  eapply Forall_impl; [|exact (scan_blocks _ _ _
                                 (extract_pre_sections_scan html))].
  intros b (H1 & H2 & _). now split.
Qed.

(** X4.  No block returned begins or ends with white space. *)
Theorem extract_blocks_trimmed html :
  Forall (fun b => trimmed b = true) (extract_pre_sections html).
Proof.
  eapply Forall_impl; [|exact (scan_blocks _ _ _
                                 (extract_pre_sections_scan html))].
  now intros b (_ & _ & H).
Qed.

(** X5.  Each block costs at least the eleven characters of its two
    markers: a text of n characters gives at most n / 11 blocks. *)
Theorem extract_count_bound html :
  (11 * length (extract_pre_sections html) <= length html)%nat.
Proof.
  destruct (scan_bound _ _ _ (extract_pre_sections_scan html)) as [H1 H2].
  destruct (start_position html 0) as [E | (a & E & _)].
  - rewrite (H1 E). simpl. lia.
  - specialize (H2 a E). lia.
Qed.

(** ** The lines of a block *)

Section Lines.

Variable sep : char.
Implicit Types (s : text) (fields : list text).

Lemma str_split_nonempty s : str_split sep s <> [].
Proof.
  destruct s as [|c s]; simpl; [discriminate|].
  destruct (N.eqb c sep); [discriminate|].
  destruct (str_split sep s); discriminate.
Qed.

Lemma str_join_cons field fields :
  fields <> [] ->
  str_join sep (field :: fields) = field ++ sep :: str_join sep fields.
Proof. destruct fields; [congruence | reflexivity]. Qed.

Lemma str_join_split s : str_join sep (str_split sep s) = s.
Proof.
  induction s as [|c s IH]; [reflexivity|]. simpl str_split.
  pose proof (str_split_nonempty s) as Hne.
  destruct (N.eqb_spec c sep) as [->|Hc].
  - rewrite str_join_cons by assumption. simpl. now rewrite IH.
  - destruct (str_split sep s) as [|field fields]; [congruence|].
    destruct fields as [|f fields].
    + simpl in *. now rewrite IH.
    + rewrite str_join_cons by discriminate.
      rewrite str_join_cons in IH by discriminate.
      now rewrite <- app_comm_cons, IH.
Qed.

Lemma str_split_no_sep s :
  Forall (fun field => ~ In sep field) (str_split sep s).
Proof.
  induction s as [|c s IH]; simpl; [constructor; [intros []|constructor]|].
  destruct (N.eqb_spec c sep) as [->|Hc].
  - constructor; [intros [] | exact IH].
  - destruct (str_split sep s) as [|field fields];
      [constructor; [|constructor]; intros [H|[]]; congruence|].
    inversion IH as [|? ? Hf Hfs]; subst.
    constructor; [|assumption]. intros [H|H]; [congruence | contradiction].
Qed.

Lemma str_split_length s :
  length (str_split sep s) = S (count_char sep s).
Proof.
  unfold count_char. induction s as [|c s IH]; [reflexivity|]. simpl.
  rewrite (N.eqb_sym sep c).
  destruct (N.eqb c sep); simpl; [now rewrite IH|].
  destruct (str_split sep s) as [|field fields]; simpl in *; [lia | exact IH].
Qed.

Lemma str_split_first s :
  match str_split sep s with
  | [] => False
  | field :: fields =>
      (exists v, s = field ++ v) /\
      Forall (fun x => substring_of x s) fields
  end.
Proof.
  induction s as [|c s IH]; simpl; [split; [now exists [] | constructor]|].
  assert (Hgrow : forall x, substring_of x s -> substring_of x (c :: s)).
  { intros x (u & v & ->). now exists (c :: u), v. }
  destruct (str_split sep s) as [|field fields]; [contradiction|].
  destruct IH as [[v E] Hfs].
  destruct (N.eqb c sep).
  - split; [now exists (c :: s)|].
    constructor.
    + apply Hgrow. exists [], v. exact E.
    + eapply Forall_impl; [|exact Hfs]. exact Hgrow.
  - split; [exists v; simpl; now rewrite E|].
    eapply Forall_impl; [|exact Hfs]. exact Hgrow.
Qed.

Lemma str_split_substring s :
  Forall (fun field => substring_of field s) (str_split sep s).
Proof.
  pose proof (str_split_first s) as H.
  destruct (str_split sep s) as [|field fields]; [contradiction|].
  destruct H as [[v E] Hfs]. constructor; [|exact Hfs].
  exists [], v. exact E.
Qed.

End Lines.

(** X6.  Splitting a block on the newline loses nothing: the lines
    joined by newlines are the block again, no line holds a newline,
    and there is one line more than there are newlines. *)
Theorem table_lines_round_trip pre_table :
  str_join nl (str_split nl pre_table) = pre_table /\
  Forall (fun line => ~ In nl line) (str_split nl pre_table) /\
  length (str_split nl pre_table) = S (count_char nl pre_table).
Proof.
  split; [apply str_join_split | split];
    [apply str_split_no_sep | apply str_split_length].
Qed.

(** ** The mapping built from a block *)

Section Mapping.

Implicit Types (d data : dict) (k v line : text) (lines : list text).

Lemma text_eqb_sym k k' : text_eqb k k' = text_eqb k' k.
Proof.
  destruct (text_eqb k k') eqn:E.
  - apply text_eqb_eq in E. subst. symmetry. apply text_eqb_refl.
  - destruct (text_eqb k' k) eqn:E'; [|reflexivity].
    apply text_eqb_eq in E'. subst. now rewrite text_eqb_refl in E.
Qed.

Lemma keys_dict_set d k v :
  keys (dict_set d k v) =
  if existsb (text_eqb k) (keys d) then keys d else keys d ++ [k].
Proof.
  unfold keys. induction d as [|[k0 v0] d IH]; [reflexivity|]. simpl.
  rewrite (text_eqb_sym k k0).
  destruct (text_eqb k0 k); simpl; [reflexivity|].
  rewrite IH.
  now destruct (existsb (text_eqb k) (map fst d)).
Qed.

Lemma in_dict_set d k0 v0 k v :
  In (k, v) (dict_set d k0 v0) -> (k = k0 /\ v = v0) \/ In (k, v) d.
Proof.
  induction d as [|[k1 v1] d IH]; simpl.
  - intros [[= <- <-]|[]]. now left.
  - destruct (text_eqb k1 k0) eqn:E; simpl.
    + apply text_eqb_eq in E. subst k1.
      intros [[= <- <-]|H]; [now left | right; now right].
    + intros [H|H]; [right; now left|].
      destruct (IH H) as [?|?]; [now left | right; now right].
Qed.

Lemma parse_lines_anchor_only lines : forall data,
  fold_left parse_line lines data =
  fold_left parse_line (filter (str_in anchor_open) lines) data.
Proof.
  induction lines as [|l lines IH]; intros data; [reflexivity|]. simpl.
  destruct (str_in anchor_open l) eqn:E; simpl.
  - apply IH.
  - now rewrite (parse_line_skip _ _ E).
Qed.

Lemma parse_lines_keys lines : forall data,
  keys (fold_left parse_line lines data) =
  keys data ++
  first_seen (keys data)
    (map line_cik (filter (str_in anchor_open) lines)).
Proof.
  induction lines as [|l lines IH]; intros data; simpl;
    [now rewrite app_nil_r|].
  rewrite IH. unfold parse_line.
  destruct (str_in anchor_open l); [|reflexivity].
  simpl. rewrite keys_dict_set.
  destruct (existsb (text_eqb (line_cik l)) (keys data)); [reflexivity|].
  now rewrite <- app_assoc.
Qed.

Lemma first_seen_length ks : forall seen,
  (length (first_seen seen ks) <= length ks)%nat.
Proof.
  induction ks as [|k ks IH]; intros seen; simpl; [lia|].
  destruct (existsb (text_eqb k) seen); simpl.
  - specialize (IH seen). lia.
  - specialize (IH (seen ++ [k])). lia.
Qed.

Lemma parse_lines_entries lines : forall data k v,
  In (k, v) (fold_left parse_line lines data) ->
  In (k, v) data \/
  exists line, In line lines /\ str_in anchor_open line = true /\
               k = line_cik line /\ v = line_company line.
Proof.
  induction lines as [|l lines IH]; intros data k v H; simpl in H;
    [now left|].
  destruct (IH _ _ _ H) as [Hin | (line & Hl & Ha & Hk & Hv)].
  - unfold parse_line in Hin.
    destruct (str_in anchor_open l) eqn:E; [|now left].
    destruct (in_dict_set _ _ _ _ _ Hin) as [[-> ->]|?]; [|now left].
    right. exists l. repeat split; [now left | assumption].
  - right. exists line. repeat split; try assumption. now right.
Qed.

Lemma parse_lines_keys_grow lines : forall data k,
  In k (keys data) -> In k (keys (fold_left parse_line lines data)).
Proof.
  induction lines as [|l lines IH]; intros data k H; simpl; [assumption|].
  apply IH. unfold parse_line. destruct (str_in anchor_open l); [|assumption].
  apply in_keys_dict_set. now right.
Qed.

Lemma parse_lines_keys_complete lines : forall data line,
  In line lines -> str_in anchor_open line = true ->
  In (line_cik line) (keys (fold_left parse_line lines data)).
Proof.
  induction lines as [|l lines IH]; intros data line Hin Ha;
    [destruct Hin|].
  destruct Hin as [->|Hin]; simpl.
  - apply parse_lines_keys_grow. rewrite parse_line_anchor by assumption.
    apply in_keys_dict_set. now left.
  - now apply IH.
Qed.

Lemma anchor_lines_in pre_table line :
  In line (anchor_lines pre_table) <->
  In line (str_split nl pre_table) /\ str_in anchor_open line = true.
Proof. apply filter_In. Qed.

End Mapping.

(** X7.  The identifiers of the mapping stand in the order in which the
    lines with an anchor bring each of them for the first time, so that
    is the order in which the records are printed; there are no more
    entries than such lines. *)
Theorem parse_table_key_order pre_table :
  keys (parse_table pre_table) =
    first_seen [] (map line_cik (anchor_lines pre_table)) /\
  (length (parse_table pre_table) <= length (anchor_lines pre_table))%nat.
Proof.
  assert (Hk : keys (parse_table pre_table) =
               first_seen [] (map line_cik (anchor_lines pre_table))).
  { unfold parse_table. now rewrite parse_lines_keys. }
  split; [exact Hk|].
  rewrite <- (length_map fst (parse_table pre_table)).
  change (map fst (parse_table pre_table)) with (keys (parse_table pre_table)).
  rewrite Hk. etransitivity; [apply first_seen_length|].
  now rewrite length_map.
Qed.

(** X8.  Every entry of the mapping comes from a line with an anchor
    (identifier and label are those of one such line), and every such
    line has its identifier among the keys. *)
Theorem parse_table_entries pre_table :
  (forall k v,
     In (k, v) (parse_table pre_table) ->
     exists line, In line (anchor_lines pre_table) /\
                  k = line_cik line /\ v = line_company line) /\
  (forall line,
     In line (anchor_lines pre_table) ->
     In (line_cik line) (keys (parse_table pre_table))).
Proof.
  split.
  - intros k v H. unfold parse_table in H.
    destruct (parse_lines_entries _ _ _ _ H)
      as [[] | (line & Hl & Ha & Hk & Hv)].
    exists line. split; [now apply anchor_lines_in | now split].
  - intros line H. apply anchor_lines_in in H as [Hl Ha].
    now apply parse_lines_keys_complete.
Qed.

Lemma parse_table_entries_witness :
  let pre_table :=
    lit "CIK  Company" ++ [nl] ++ anchor_open ++ lit "x" ++ quote_gt
    ++ lit "123</a>  Example Co" in
  (exists line, In line (anchor_lines pre_table) /\
                lit "123" = line_cik line /\
                lit "Example Co" = line_company line) /\
  In (lit "123") (keys (parse_table pre_table)).
Proof.
  intros pre_table.
  destruct (parse_table_entries pre_table) as [Hsound Hcomplete].
  split.
  - apply Hsound. left. reflexivity.
  - apply (Hcomplete (anchor_open ++ lit "x" ++ quote_gt
                      ++ lit "123</a>  Example Co")).
    left. reflexivity.
Defined.

(** X9.  A block without any anchor open gives the empty mapping, and
    the driver then prints the header alone. *)
Theorem parse_table_no_anchor pre_table :
  str_in anchor_open pre_table = false ->
  parse_table pre_table = [] /\
  forall entry,
    print_results entry (parse_table pre_table) =
    print ([nl] ++ lit "Results for '" ++ entry ++ lit "':").
Proof.
  intros Hno.
  assert (Hnil : anchor_lines pre_table = []).
  { unfold anchor_lines.
    pose proof (str_split_substring nl pre_table) as Hsub.
    induction Hsub as [|line lines Hl _ IH]; [reflexivity|]. simpl.
    now rewrite (substring_str_in _ _ _ anchor_open_ne Hl Hno). }
  assert (Hp : parse_table pre_table = []).
  { unfold parse_table. rewrite parse_lines_anchor_only.
    fold (anchor_lines pre_table). now rewrite Hnil. }
  split; [exact Hp|]. intros entry. rewrite Hp.
  unfold print_results. simpl concat. apply app_nil_r.
Qed.

Lemma parse_table_no_anchor_witness :
  parse_table (lit "CIK  Company" ++ [nl] ++ lit "no link here") = [].
Proof.
  exact (proj1 (parse_table_no_anchor
                  (lit "CIK  Company" ++ [nl] ++ lit "no link here")
                  eq_refl)).
Defined.

(** ** Records and what is printed *)

Section Records.

Implicit Types (s x : text) (c : char) (data : dict).

Lemma count_char_app c s x :
  count_char c (s ++ x) = (count_char c s + count_char c x)%nat.
Proof. unfold count_char. now rewrite filter_app, length_app. Qed.

Lemma count_char_absent c s : ~ In c s -> count_char c s = 0%nat.
Proof.
  unfold count_char. induction s as [|d s IH]; intros Hn; [reflexivity|].
  simpl. destruct (N.eqb_spec c d) as [->|_].
  - exfalso. apply Hn. now left.
  - apply IH. intros H. apply Hn. now right.
Qed.

Lemma count_char_spaces n : count_char nl (repeat space n) = 0%nat.
Proof. induction n as [|n IH]; [reflexivity | exact IH]. Qed.

(** Identifier and label of a line are cut out of the line. *)
Lemma line_fields_substrings line :
  substring_of (line_cik line) line /\
  substring_of (line_company line) line.
Proof.
  split.
  - exact (substring_trans _ _ _ (str_strip_substring _)
             (slice_substring _ _ _)).
  - exact (substring_trans _ _ _ (str_strip_substring _)
             (slice_from_substring _ _)).
Qed.

Lemma parse_table_fields_of_lines pre_table k v :
  In (k, v) (parse_table pre_table) ->
  trimmed k = true /\ trimmed v = true /\ ~ In nl k /\ ~ In nl v.
Proof.
  intros H. unfold parse_table in H.
  destruct (parse_lines_entries _ _ _ _ H)
    as [[] | (line & Hl & _ & -> & ->)].
  pose proof (str_split_no_sep nl pre_table) as Hno.
  rewrite Forall_forall in Hno. specialize (Hno line Hl).
  destruct (line_fields_substrings line) as [Hk Hv].
  split; [apply str_strip_trimmed | split; [apply str_strip_trimmed|]].
  split; intros Hin; apply Hno.
  - exact (substring_in _ _ _ Hk Hin).
  - exact (substring_in _ _ _ Hv Hin).
Qed.

Lemma print_record_one_line k v :
  ~ In nl k -> ~ In nl v -> count_char nl (print_record (k, v)) = 1%nat.
Proof.
  intros Hk Hv. unfold print_record, print, format_left. simpl fst.
  simpl snd. rewrite !count_char_app, count_char_spaces.
  rewrite (count_char_absent nl k Hk), (count_char_absent nl v Hv).
  reflexivity.
Qed.

Lemma extract_pre_sections_peel gap block rest :
  str_in start_tag gap = false ->
  str_in end_tag block = false ->
  extract_pre_sections (gap ++ start_tag ++ block ++ end_tag ++ rest) =
  str_strip block :: extract_pre_sections rest.
Proof.
  intros Hg Hb.
  destruct (first_pair_scan gap block rest Hg Hb) as [Hs Hscan].
  rewrite <- Hs in Hscan. apply extract_run_scan in Hscan.
  unfold extract_pre_sections at 1. now rewrite Hscan.
Qed.

End Records.

(** X10.  Every identifier and every label of the mapping is trimmed
    (no white space at either end) and holds no newline. *)
Theorem parse_table_fields pre_table :
  Forall (fun kv => trimmed (fst kv) = true /\ trimmed (snd kv) = true /\
                    ~ In nl (fst kv) /\ ~ In nl (snd kv))
    (parse_table pre_table).
Proof.
  apply Forall_forall. intros [k v] H.
  exact (parse_table_fields_of_lines pre_table k v H).
Qed.

(** X11.  The results of a query take one output line for each entry of
    the mapping, after the empty line and the header line (a newline in
    the query name apart). *)
Theorem print_results_line_count entry pre_table :
  count_char nl (print_results entry (parse_table pre_table)) =
  (2 + count_char nl entry + length (parse_table pre_table))%nat.
Proof.
  unfold print_results, print. rewrite !count_char_app.
  assert (Hrec : forall data,
            (forall k v, In (k, v) data -> ~ In nl k /\ ~ In nl v) ->
            count_char nl (concat (map print_record data)) = length data).
  { induction data as [|[k v] data IH]; intros Hall; [reflexivity|].
    simpl. rewrite count_char_app, IH.
    - destruct (Hall k v (or_introl eq_refl)) as [Hk Hv].
      now rewrite print_record_one_line.
    - intros k' v' Hin. apply Hall. now right. }
  rewrite Hrec.
  - change (count_char nl [nl]) with 1%nat.
    change (count_char nl (lit "Results for '")) with 0%nat.
    change (count_char nl (lit "':")) with 0%nat.
    replace (1 + (0 + (count_char nl entry + 0)) + 1)%nat
      with (2 + count_char nl entry)%nat by lia.
    reflexivity.
  - intros k v Hin.
    destruct (parse_table_fields_of_lines pre_table k v Hin)
      as (_ & _ & Hk & Hv). now split.
Qed.

(** X12.  A line made of some text, an anchor and more text, in which
    neither closing sequence appears before its place, gives the record
    whose identifier is the trimmed text of the anchor and whose label
    is the trimmed text after it. *)
Theorem anchor_line_record before url ident after data :
  str_in quote_gt (before ++ anchor_open ++ url) = false ->
  str_in anchor_close
    (before ++ anchor_open ++ url ++ quote_gt ++ ident) = false ->
  parse_line data (anchor_line before url ident after) =
    dict_set data (str_strip ident) (str_strip after) /\
  dict_get (parse_line data (anchor_line before url ident after))
    (str_strip ident) = Some (str_strip after).
Proof.
  intros Hq Hc.
  destruct (anchor_line_fields before url ident after Hq Hc)
    as (Hin & _ & _ & Hcik & Hco).
  assert (Hp : parse_line data (anchor_line before url ident after) =
               dict_set data (str_strip ident) (str_strip after)).
  { rewrite parse_line_anchor by assumption. now rewrite Hcik, Hco. }
  split; [exact Hp|]. rewrite Hp. apply dict_get_set_same.
Qed.

Lemma anchor_line_record_witness :
  parse_line []
    (anchor_line (lit "  ") (lit "browse?CIK=0001234567")
       (lit "0001234567") (lit "   EXAMPLE CO ")) =
  [(lit "0001234567", lit "EXAMPLE CO")].
Proof.
  refine (eq_trans
            (proj1 (anchor_line_record (lit "  ") (lit "browse?CIK=0001234567")
                      (lit "0001234567") (lit "   EXAMPLE CO ") []
                      eq_refl eq_refl)) _).
  reflexivity.
Defined.

(** X13.  When the response begins with two complete blocks, what is
    printed is the mapping of the second block alone: the content of the
    first block and everything after the second have no part in it. *)
Theorem process_second_block entry gap0 block0 gap1 block1 rest :
  str_in start_tag gap0 = false -> str_in end_tag block0 = false ->
  str_in start_tag gap1 = false -> str_in end_tag block1 = false ->
  process_document entry
    (gap0 ++ start_tag ++ block0 ++ end_tag
     ++ gap1 ++ start_tag ++ block1 ++ end_tag ++ rest) =
  (print_results entry (parse_table (str_strip block1)),
   Some (parse_table (str_strip block1))).
Proof.
  intros Hg0 Hb0 Hg1 Hb1. unfold process_document.
  rewrite (extract_pre_sections_peel gap0 block0 _ Hg0 Hb0).
  rewrite (extract_pre_sections_peel gap1 block1 _ Hg1 Hb1).
  reflexivity.
Qed.

Lemma process_second_block_witness :
  fst (process_document (lit "ABC")
         (lit "<html><pre>CIK  Company</pre><hr><pre>"
          ++ anchor_open ++ lit "a" ++ quote_gt ++ lit "1234567</a>  One"
          ++ [nl]
          ++ anchor_open ++ lit "b" ++ quote_gt ++ lit "2345678</a>  Two"
          ++ lit "</pre><pre>ignored</pre></html>")) =
  [nl] ++ lit "Results for 'ABC':" ++ [nl]
  ++ lit "1234567   : One" ++ [nl]
  ++ lit "2345678   : Two" ++ [nl].
Proof.
  refine (eq_trans
            (f_equal fst
               (process_second_block (lit "ABC")
                  (lit "<html>") (lit "CIK  Company") (lit "<hr>")
                  (anchor_open ++ lit "a" ++ quote_gt
                   ++ lit "1234567</a>  One" ++ [nl]
                   ++ anchor_open ++ lit "b" ++ quote_gt
                   ++ lit "2345678</a>  Two")
                  (lit "<pre>ignored</pre></html>")
                  eq_refl eq_refl eq_refl eq_refl)) _).
  reflexivity.
Defined.

(** X14.  When the response has one complete block and no start marker
    after it, the query prints the line about the missing table. *)
Theorem process_single_block entry gap block rest :
  str_in start_tag gap = false -> str_in end_tag block = false ->
  str_in start_tag rest = false ->
  process_document entry (gap ++ start_tag ++ block ++ end_tag ++ rest) =
  (print_missing entry, None).
Proof.
  intros Hg Hb Hr. unfold process_document.
  rewrite (extract_pre_sections_peel gap block _ Hg Hb).
  assert (Hnil : extract_pre_sections rest = []).
  { unfold extract_pre_sections.
    change rest with (document [] rest).
    now rewrite (extract_run_document [] rest eq_refl Hr). }
  rewrite Hnil. reflexivity.
Qed.

Lemma process_single_block_witness :
  process_document (lit "ABC") (lit "<html><pre>CIK  Company</pre></html>")
  = (lit "Error: Missing expected table for 'ABC'." ++ [nl], None).
Proof.
  refine (eq_trans
            (process_single_block (lit "ABC") (lit "<html>")
               (lit "CIK  Company") (lit "</html>")
               eq_refl eq_refl eq_refl) _).
  reflexivity.
Defined.

(** ** Instances *)

Lemma extract_blocks_substrings_witness :
  Forall (fun b => substring_of b (lit "x<pre> a </pre>y<pre>b</pre>z") /\
                   str_in end_tag b = false)
    [lit "a"; lit "b"].
Proof.
  exact (extract_blocks_substrings (lit "x<pre> a </pre>y<pre>b</pre>z")).
Defined.

Lemma extract_blocks_trimmed_witness :
  Forall (fun b => trimmed b = true) [lit "a"; lit "b c"].
Proof.
  exact (extract_blocks_trimmed (lit "x<pre> a </pre>y<pre> b c </pre>z")).
Defined.

Lemma extract_count_bound_witness :
  (11 * length (extract_pre_sections (lit "<pre></pre><pre></pre>"))
   <= 22)%nat.
Proof.
  exact (extract_count_bound (lit "<pre></pre><pre></pre>")).
Defined.

Lemma table_lines_round_trip_witness :
  str_join nl [lit "one"; []; lit "two"] =
    lit "one" ++ [nl; nl] ++ lit "two" /\
  length (str_split nl (lit "one" ++ [nl; nl] ++ lit "two")) = 3%nat.
Proof.
  destruct (table_lines_round_trip (lit "one" ++ [nl; nl] ++ lit "two"))
    as (Hjoin & _ & Hlen).
  split; [exact Hjoin | exact Hlen].
Defined.

Lemma parse_table_key_order_witness :
  let line id name :=
    anchor_open ++ lit "u" ++ quote_gt ++ id ++ lit "</a>  " ++ name in
  let pre_table :=
    line (lit "222") (lit "B") ++ [nl] ++ line (lit "111") (lit "A")
    ++ [nl] ++ line (lit "222") (lit "C") in
  keys (parse_table pre_table) = [lit "222"; lit "111"] /\
  parse_table pre_table = [(lit "222", lit "C"); (lit "111", lit "A")].
Proof.
  intros line pre_table.
  split; [|reflexivity].
  refine (eq_trans (proj1 (parse_table_key_order pre_table)) _).
  reflexivity.
Defined.

Lemma parse_table_fields_witness :
  Forall (fun kv => trimmed (fst kv) = true /\ trimmed (snd kv) = true /\
                    ~ In nl (fst kv) /\ ~ In nl (snd kv))
    [(lit "123", lit "Example Co")].
Proof.
  exact (parse_table_fields
           (anchor_open ++ lit "x" ++ quote_gt
            ++ lit " 123 </a>  Example Co ")).
Defined.

Lemma print_results_line_count_witness :
  count_char nl
    (print_results (lit "ABC")
       (parse_table
          (anchor_open ++ lit "x" ++ quote_gt ++ lit "123</a>  Example Co")))
  = 3%nat.
Proof.
  exact (print_results_line_count (lit "ABC")
           (anchor_open ++ lit "x" ++ quote_gt ++ lit "123</a>  Example Co")).
Defined.
